(** * The mind-map layout and viewport engine of the study-assistant client

    A shallow embedding of the mind-map page: identifier assignment
    ([addIds]), the tree layout ([calculateLayout] with its two nested
    passes [buildHierarchy] and [positionNodes]), the expansion set
    ([toggleNode]) and the viewport handlers ([handleButtonZoom],
    [handleWheel], [handleMouseDown], [handleMouseMove]).  Beside it: the
    touch handlers of the page, the zoom handlers of the mind map embedded
    in the document page ([MindMapComponent]), and the answer and score
    state of the two quiz pages ([MCQPage], [QuizPage]).

    Conventions of the embedding.
    - A JavaScript number is an exact rational ([Q]); equality of numbers is
      [Qeq].  Rounding, infinities and NaN are outside the model, so a
      statement that goes through a division names its divisor as nonzero.
      Where rounding decides a statement, the layout pass is read a second
      time over binary64 floats ([Double]).
    - A JavaScript string is a [string]; one [ascii] stands for one code unit.
    - A [Set<string>] is a [gset string].
    - Objects that are shared and mutated ([LayoutNode]) live in a store, a
      list indexed by address; a reference is an address. *)

From Stdlib Require Import Ascii QArith Qminmax Qfield Lqa DecimalString DecimalNat.
From Stdlib Require PrimFloat FloatOps Uint63.
From stdpp Require Import gmap strings list.

#[local] Set Warnings "-clear-no-such-hyp,-register-all".

(** ** Type definitions *)

Local Unset Elimination Schemes.

(** [interface MindMapNode { id?: string; topic: string; children: MindMapNode[] }] *)
Inductive MindMapNode : Type :=
  MkMindMapNode (id : option string) (topic : string) (children : list MindMapNode).

Local Set Elimination Schemes.

Definition mm_id (n : MindMapNode) : option string :=
  match n with MkMindMapNode i _ _ => i end.
Definition mm_topic (n : MindMapNode) : string :=
  match n with MkMindMapNode _ t _ => t end.
Definition mm_children (n : MindMapNode) : list MindMapNode :=
  match n with MkMindMapNode _ _ cs => cs end.

(** Induction over a topic tree, with the children handled by [Forall]. *)
Section MindMapNode_ind.
Variable P : MindMapNode → Prop.
Hypothesis P_node : ∀ i t cs, Forall P cs → P (MkMindMapNode i t cs).

Fixpoint MindMapNode_ind (n : MindMapNode) : P n :=
  match n with
  | MkMindMapNode i t cs =>
      P_node i t cs
        ((fix all (l : list MindMapNode) : Forall P l :=
            match l with
            | [] => @List.Forall_nil _ P
            | c :: l' => @List.Forall_cons _ P c l' (MindMapNode_ind c) (all l')
            end) cs)
  end.
End MindMapNode_ind.

(** Every node of a tree, the node itself first, then its subtrees in order. *)
Fixpoint subnodes (n : MindMapNode) : list MindMapNode :=
  match n with
  | MkMindMapNode _ _ cs => n :: flat_map subnodes cs
  end.

(** ** Helper functions *)

(** The character class [[a-zA-Z0-9]]. *)
Definition is_alnum (c : Ascii.ascii) : bool :=
  let n := Ascii.nat_of_ascii c in
  (((97 <=? n) && (n <=? 122)) || ((65 <=? n) && (n <=? 90))
   || ((48 <=? n) && (n <=? 57)))%nat.

(** [topic.replace(/[^a-zA-Z0-9]/g, '-')] *)
Fixpoint sanitize (s : string) : string :=
  match s with
  | EmptyString => EmptyString
  | String c r => String (if is_alnum c then c else "-"%char) (sanitize r)
  end.

(** The text a template literal gives for an array index. *)
Definition index_str (i : nat) : string :=
  NilEmpty.string_of_uint (Nat.to_uint i).

(** [array.map((child, i) => f(i, child))], the index counted from [i]. *)
Section imap_from.
Context {A B : Type}.
Variable f : nat → A → B.

Fixpoint imap_from (i : nat) (l : list A) : list B :=
  match l with
  | [] => []
  | x :: l' => f i x :: imap_from (S i) l'
  end.
End imap_from.

(** [addIds(node, prefix)]; the source defaults [prefix] to ['root']. *)
Fixpoint addIds (node : MindMapNode) (prefix : string) : MindMapNode :=
  match node with
  | MkMindMapNode _ topic children =>
      let id := prefix +:+ "-" +:+ sanitize topic in
      MkMindMapNode (Some id) topic
        (imap_from (λ i child, addIds child (id +:+ "-" +:+ index_str i)) 0 children)
  end.

Definition root_prefix : string := "root".

(** ** Constants *)

Definition NODE_HEIGHT : Q := 50.
Definition HORIZONTAL_SPACING : Q := 60.
Definition VERTICAL_SPACING : Q := 20.
Definition NODE_HORIZONTAL_PADDING : Q := 40.
Definition MIN_NODE_WIDTH : Q := 120.
Definition CHEVRON_OFFSET : Q := 16.
Definition MIN_ZOOM_WIDTH : Q := 200.
Definition MAX_ZOOM_WIDTH : Q := 8000.

(** ** Layout nodes and the store they live in *)

(** A reference to a [LayoutNode] object. *)
Abbreviation addr := nat (only parsing).

(** [type LayoutNode]: [children] and [parent] are references. *)
Record LayoutNode : Type := MkLayoutNode {
  ln_id : option string;
  ln_name : string;
  ln_children : list addr;
  ln_x : Q;
  ln_y : Q;
  ln_depth : nat;
  ln_width : Q;
  ln_height : Q;
  ln_sourceData : MindMapNode;
  ln_parent : option addr
}.

(** The numbers that the path text [d] of a link is printed from:
    [M sx sy C c1x sy, c2x ty, tx ty]. *)
Record LinkPath : Type := MkLinkPath {
  lp_sx : Q; lp_sy : Q; lp_c1x : Q; lp_c2x : Q; lp_tx : Q; lp_ty : Q
}.

(** [type LayoutLink]: [source] and [target] are references. *)
Record LayoutLink : Type := MkLayoutLink {
  ll_id : string;
  ll_source : addr;
  ll_target : addr;
  ll_d : LinkPath
}.

(** Field assignments [node.children = ...], [node.x = ...], [node.y = ...]. *)
Definition set_children (cs : list addr) (n : LayoutNode) : LayoutNode :=
  MkLayoutNode (ln_id n) (ln_name n) cs (ln_x n) (ln_y n) (ln_depth n)
    (ln_width n) (ln_height n) (ln_sourceData n) (ln_parent n).
Definition set_x (x : Q) (n : LayoutNode) : LayoutNode :=
  MkLayoutNode (ln_id n) (ln_name n) (ln_children n) x (ln_y n) (ln_depth n)
    (ln_width n) (ln_height n) (ln_sourceData n) (ln_parent n).
Definition set_y (y : Q) (n : LayoutNode) : LayoutNode :=
  MkLayoutNode (ln_id n) (ln_name n) (ln_children n) (ln_x n) y (ln_depth n)
    (ln_width n) (ln_height n) (ln_sourceData n) (ln_parent n).

(** The store of layout nodes: the object at address [a] is the [a]-th
    element; a new object goes to the end. *)
Abbreviation store := (list LayoutNode).

(** [child.y], read through the reference. *)
Definition y_of (h : store) (a : addr) : Q :=
  match h !! a with
  | Some n => ln_y n
  | None => 0
  end.

(** The text a template literal gives for an optional string. *)
Definition show_id (i : option string) : string :=
  match i with
  | Some s => s
  | None => "undefined"
  end.

(** [array.map(f)] for an [f] that works on a state. *)
Section map_state.
Context {A B S : Type}.
Variable f : A → S → B * S.

Fixpoint map_state (l : list A) (s : S) : list B * S :=
  match l with
  | [] => ([], s)
  | x :: l' =>
      let '(y, s1) := f x s in
      let '(ys, s2) := map_state l' s1 in
      (y :: ys, s2)
  end.
End map_state.

(** [array.forEach(f)] for an [f] that works on a state and may get stuck. *)
Section for_each.
Context {A S : Type}.
Variable f : A → S → option S.

Fixpoint for_each (l : list A) (s : S) : option S :=
  match l with
  | [] => Some s
  | x :: l' =>
      match f x s with
      | Some s1 => for_each l' s1
      | None => None
      end
  end.
End for_each.

(** The variables [buildHierarchy] closes over: the store and [yCounter]. *)
Record BuildState : Type := MkBuildState {
  bs_store : store;
  bs_yCounter : Q
}.

(** The variables [positionNodes] closes over: the store, [nodes], [links]. *)
Record LayoutState : Type := MkLayoutState {
  st_store : store;
  st_nodes : list addr;
  st_links : list LayoutLink
}.

Definition is_expanded (expandedNodes : gset string) (i : option string) : bool :=
  match i with
  | Some k => bool_decide (k ∈ expandedNodes)
  | None => false
  end.

Definition node_font : string := "500 16px sans-serif".

Section Layout.
(** The component state [expandedNodes] and the canvas text measurement. *)
Variable expandedNodes : gset string.
Variable getTextWidth : string → string → Q.

Fixpoint buildHierarchy (nodeData : MindMapNode) (depth : nat)
    (parent : option addr) (s : BuildState) : addr * BuildState :=
  match nodeData with
  | MkMindMapNode id topic children =>
      let isExpanded := is_expanded expandedNodes id in
      let textWidth := getTextWidth topic node_font in
      let nodeWidth := Qmax MIN_NODE_WIDTH (textWidth + NODE_HORIZONTAL_PADDING) in
      let layoutNode := length (bs_store s) in
      let s0 :=
        MkBuildState
          (bs_store s ++
             [MkLayoutNode id topic [] 0 0 depth nodeWidth NODE_HEIGHT nodeData parent])
          (bs_yCounter s) in
      let '(kids, s1) :=
        if isExpanded
        then map_state (λ child, buildHierarchy child (S depth) (Some layoutNode))
               children s0
        else ([], s0) in
      let h := alter (set_children kids) layoutNode (bs_store s1) in
      if (0 <? length kids)%nat then
        let childrenYSum := fold_left (λ sum child, sum + y_of h child)%Q kids 0%Q in
        (layoutNode,
         MkBuildState
           (alter (set_y (childrenYSum / inject_Z (Z.of_nat (length kids)))%Q) layoutNode h)
           (bs_yCounter s1))
      else
        (layoutNode,
         MkBuildState
           (alter (set_y (bs_yCounter s1)) layoutNode h)
           (bs_yCounter s1 + (NODE_HEIGHT + VERTICAL_SPACING))%Q)
  end.

Variable containerWidth : Q.

(** [fuel] bounds the depth of the recursion through the store; [None] is
    fuel run out or a reference that does not resolve. *)
Fixpoint positionNodes (fuel : nat) (node : addr) (yOffset parentX parentWidth : Q)
    (st : LayoutState) : option LayoutState :=
  match fuel with
  | O => None
  | S fuel' =>
      n ← st_store st !! node;
      let x :=
        match ln_parent n with
        | Some _ => (parentX + (parentWidth / 2 + HORIZONTAL_SPACING + ln_width n / 2))%Q
        | None => ((- containerWidth / 2) + (ln_width n / 2) + 50)%Q
        end in
      let n1 := set_y (ln_y n + yOffset)%Q (set_x x n) in
      let h1 := <[node := n1]> (st_store st) in
      let nodes1 := st_nodes st ++ [node] in
      links1 ←
        match ln_parent n1 with
        | Some p =>
            pn ← h1 !! p;
            let sx := (ln_x pn + ln_width pn / 2 + CHEVRON_OFFSET)%Q in
            let sy := ln_y pn in
            let tx := (ln_x n1 - ln_width n1 / 2)%Q in
            let ty := ln_y n1 in
            let c1x := (sx + (HORIZONTAL_SPACING / 1.5))%Q in
            let c2x := (tx - (HORIZONTAL_SPACING / 1.5))%Q in
            Some (st_links st ++
                    [MkLayoutLink (show_id (ln_id pn) +:+ "-" +:+ show_id (ln_id n1))
                       p node (MkLinkPath sx sy c1x c2x tx ty)])
        | None => Some (st_links st)
        end;
      for_each
        (λ child st',
           cur ← st_store st' !! node;
           positionNodes fuel' child yOffset (ln_x cur) (ln_width cur) st')
        (ln_children n1)
        (MkLayoutState h1 nodes1 links1)
  end.

(** [calculateLayout(rootNode, containerWidth)].  The result keeps the
    store, through which the references in [nodes] and [links] are read.
    The depth of the hierarchy is at most the number of objects built. *)
Definition calculateLayout (rootNode : MindMapNode) : option LayoutState :=
  let '(hierarchy, s) := buildHierarchy rootNode 0 None (MkBuildState [] 0) in
  let yCorrection := (- y_of (bs_store s) hierarchy)%Q in
  positionNodes (length (bs_store s)) hierarchy yCorrection 0 0
    (MkLayoutState (bs_store s) [] []).
End Layout.

(** [setInitialExpandedState(mapData)], on [mapData.data.roots]. *)
Definition setInitialExpandedState (roots : list MindMapNode) : gset string :=
  match roots with
  | root :: _ =>
      match mm_id (addIds root root_prefix) with
      | Some i => {[ i ]}
      | None => ∅
      end
  | [] => ∅
  end.

(** The updater [toggleNode(nodeId)] hands to [setExpandedNodes]. *)
Definition toggleNode (nodeId : string) (prev : gset string) : gset string :=
  if bool_decide (nodeId ∈ prev) then prev ∖ {[ nodeId ]} else prev ∪ {[ nodeId ]}.

(** ** The viewport *)

(** The state [viewBox], the four numbers of the text ["x y w h"]. *)
Record ViewBox : Type := MkViewBox { vb_x : Q; vb_y : Q; vb_w : Q; vb_h : Q }.

(** What [getBoundingClientRect()] gives for the drawing surface. *)
Record DOMRect : Type := MkDOMRect {
  rect_left : Q; rect_top : Q; rect_width : Q; rect_height : Q
}.

Inductive Direction : Type := dir_in | dir_out.

Record WheelEvent : Type := MkWheelEvent { we_deltaY : Q; we_clientX : Q; we_clientY : Q }.
Record MouseEvent : Type := MkMouseEvent { me_clientX : Q; me_clientY : Q }.

(** The part of the component state the pointer handlers work on. *)
Record PageState : Type := MkPageState {
  viewBox : ViewBox;
  isDragging : bool;
  dragStart : Q * Q;
  svgRectRef : option DOMRect
}.

Local Open Scope Q_scope.

Definition Qltb (a b : Q) : bool := negb (Qle_bool b a).

(** The two clamping statements shared by both zoom handlers. *)
Definition clampWidth (newW : Q) : Q :=
  let newW := if Qltb newW MIN_ZOOM_WIDTH then MIN_ZOOM_WIDTH else newW in
  if Qltb MAX_ZOOM_WIDTH newW then MAX_ZOOM_WIDTH else newW.

(** [handleButtonZoom(direction)]; [svg] is [svgRef.current], given by the
    bounding box of the element when it is mounted. *)
Definition handleButtonZoom (svg : option DOMRect) (direction : Direction)
    (st : PageState) : PageState :=
  match svg with
  | None => st
  | Some _ =>
      let '(MkViewBox vx vy vw vh) := viewBox st in
      let scaleFactor : Q := 1.25 in
      let scale :=
        match direction with
        | dir_out => scaleFactor
        | dir_in => 1 / scaleFactor
        end in
      let newW := clampWidth (vw * scale) in
      let newH := vh * (newW / vw) in
      let newX := vx + (vw - newW) / 2 in
      let newY := vy + (vh - newH) / 2 in
      MkPageState (MkViewBox newX newY newW newH)
        (isDragging st) (dragStart st) (svgRectRef st)
  end.

(** [handleWheel(e)] *)
Definition handleWheel (svg : option DOMRect) (e : WheelEvent)
    (st : PageState) : PageState :=
  match svg with
  | None => st
  | Some svgRect =>
      let '(MkViewBox vx vy vw vh) := viewBox st in
      let scaleFactor : Q := 1.1 in
      let scale := if Qltb 0 (we_deltaY e) then scaleFactor else 1 / scaleFactor in
      let newW := clampWidth (vw * scale) in
      let newH := vh * (newW / vw) in
      let mouseX := we_clientX e - rect_left svgRect in
      let mouseY := we_clientY e - rect_top svgRect in
      let svgX := vx + (mouseX / rect_width svgRect) * vw in
      let svgY := vy + (mouseY / rect_height svgRect) * vh in
      let newX := svgX - (mouseX / rect_width svgRect) * newW in
      let newY := svgY - (mouseY / rect_height svgRect) * newH in
      MkPageState (MkViewBox newX newY newW newH)
        (isDragging st) (dragStart st) (svgRectRef st)
  end.

(** [handleMouseDown(e)] *)
Definition handleMouseDown (svg : option DOMRect) (e : MouseEvent)
    (st : PageState) : PageState :=
  MkPageState (viewBox st) true (me_clientX e, me_clientY e)
    (match svg with
     | Some svgRect => Some svgRect
     | None => svgRectRef st
     end).

(** [handleMouseUp()] *)
Definition handleMouseUp (st : PageState) : PageState :=
  MkPageState (viewBox st) false (dragStart st) None.

(** [handleMouseMove(e)] *)
Definition handleMouseMove (e : MouseEvent) (st : PageState) : PageState :=
  match isDragging st, svgRectRef st with
  | true, Some svgRect =>
      let '(MkViewBox x y w h) := viewBox st in
      let dx := (me_clientX e - fst (dragStart st)) * (w / rect_width svgRect) in
      let dy := (me_clientY e - snd (dragStart st)) * (h / rect_height svgRect) in
      MkPageState (MkViewBox (x - dx) (y - dy) w h)
        true (me_clientX e, me_clientY e) (svgRectRef st)
  | _, _ => st
  end.

(** The scene point shown at a pixel of the surface, as [handleWheel]
    computes [svgX] and [svgY]. *)
Definition sceneX (vb : ViewBox) (svgRect : DOMRect) (mouseX : Q) : Q :=
  vb_x vb + (mouseX / rect_width svgRect) * vb_w vb.
Definition sceneY (vb : ViewBox) (svgRect : DOMRect) (mouseY : Q) : Q :=
  vb_y vb + (mouseY / rect_height svgRect) * vb_h vb.

(** A zoom command: a click on a zoom button or a turn of the wheel. *)
Inductive ZoomOp : Type :=
| ButtonZoom (direction : Direction)
| WheelZoom (e : WheelEvent).

Definition zoom_step (svgRect : DOMRect) (st : PageState) (op : ZoomOp) : PageState :=
  match op with
  | ButtonZoom d => handleButtonZoom (Some svgRect) d st
  | WheelZoom e => handleWheel (Some svgRect) e st
  end.

(** The command asks to zoom in, respectively out. *)
Definition zooms_in (op : ZoomOp) : Prop :=
  match op with
  | ButtonZoom d => d = dir_in
  | WheelZoom e => ¬ (0 < we_deltaY e)
  end.
Definition zooms_out (op : ZoomOp) : Prop :=
  match op with
  | ButtonZoom d => d = dir_out
  | WheelZoom e => 0 < we_deltaY e
  end.

Local Close Scope Q_scope.

(** ** Vocabulary of the statements *)

Definition Qsum (l : list Q) : Q := fold_right Qplus 0%Q l.

(** The arithmetic mean of a list of numbers. *)
Definition Qmean (l : list Q) : Q := (Qsum l / inject_Z (Z.of_nat (length l)))%Q.

(** The [y] of the children of a node, read through their references. *)
Definition children_y (h : store) (n : LayoutNode) : option (list Q) :=
  mapM (λ c, ln_y <$> h !! c) (ln_children n).

(** The value [buildHierarchy] assigns to the [y] of a node with children. *)
Definition y_mean (h : store) (kids : list addr) : Q :=
  (fold_left (λ sum child, sum + y_of h child) kids 0
   / inject_Z (Z.of_nat (length kids)))%Q.

(** The node at [b] with children sits at the value above. *)
Definition centred_at (h : store) (b : addr) : Prop :=
  ∀ n, h !! b = Some n → ln_children n ≠ [] → (ln_y n == y_mean h (ln_children n))%Q.

(** The two nodes agree in every field apart from their position. *)
Definition same_but_xy (n n' : LayoutNode) : Prop :=
  set_x 0%Q (set_y 0%Q n) = set_x 0%Q (set_y 0%Q n').

(** From [h] to [h'] the nodes at the addresses [A] moved down by [off]
    and no other [y] changed; apart from positions the objects are the same. *)
Definition shifted (A : list addr) (off : Q) (h h' : store) : Prop :=
  ∀ b n, h !! b = Some n →
    ∃ n', h' !! b = Some n' ∧ same_but_xy n n'
          ∧ (b ∈ A → ln_y n' = (ln_y n + off)%Q)
          ∧ (b ∉ A → ln_y n' = ln_y n).

Local Unset Elimination Schemes.

(** The references of a hierarchy, as a tree of addresses. *)
Inductive htree : Type := HNode (a : addr) (kids : list htree).

Local Set Elimination Schemes.

Definition h_root (t : htree) : addr := match t with HNode a _ => a end.

(** The addresses of a hierarchy, a node before its subtrees. *)
Fixpoint h_addrs (t : htree) : list addr :=
  match t with
  | HNode a kids => a :: flat_map h_addrs kids
  end.

Section htree_ind.
Variable P : htree → Prop.
Hypothesis P_node : ∀ a kids, Forall P kids → P (HNode a kids).

Fixpoint htree_ind (t : htree) : P t :=
  match t with
  | HNode a kids =>
      P_node a kids
        ((fix all (l : list htree) : Forall P l :=
            match l with
            | [] => @List.Forall_nil _ P
            | k :: l' => @List.Forall_cons _ P k l' (htree_ind k) (all l')
            end) kids)
  end.
End htree_ind.

(** The store holds the hierarchy [t] below the parent [p]: every address
    of [t] resolves, [children] lists the roots of the subtrees and [parent]
    points back. *)
Inductive hier (h : store) : option addr → htree → Prop :=
| hier_node (p : option addr) (a : addr) (kids : list htree) (n : LayoutNode) :
    h !! a = Some n →
    ln_parent n = p →
    ln_children n = h_root <$> kids →
    Forall (hier h (Some a)) kids →
    hier h p (HNode a kids).

(** A link made below the parent [p] for a node of [A]. *)
Definition link_in (p : option addr) (A : list addr) (l : LayoutLink) : Prop :=
  ll_target l ∈ A ∧ (ll_source l ∈ A ∨ p = Some (ll_source l)).

(** What [positionNodes] does to its state for a hierarchy with addresses
    [A] below the parent [p]. *)
Definition positioned (p : option addr) (A : list addr) (off : Q)
    (st st' : LayoutState) : Prop :=
  st_nodes st' = st_nodes st ++ A
  ∧ (∃ L, st_links st' = st_links st ++ L
          ∧ length L + match p with Some _ => 0 | None => 1 end = length A
          ∧ Forall (link_in p A) L)
  ∧ shifted A off (st_store st) (st_store st').

(** No character of the string is the separator. *)
Fixpoint no_dash (s : string) : Prop :=
  match s with
  | EmptyString => True
  | String c r => c ≠ "-"%char ∧ no_dash r
  end.

(** The identifier the text of the specification gives to a child:
    parent, then label, then index. *)
Definition label_then_index_id (parentId label : string) (index : nat) : string :=
  parentId +:+ "-" +:+ sanitize label +:+ "-" +:+ index_str index.

(** The identifier [addIds] gives to a child: parent, then index, then label. *)
Definition index_then_label_id (parentId label : string) (index : nat) : string :=
  parentId +:+ "-" +:+ index_str index +:+ "-" +:+ sanitize label.

(** The identifiers of a tree, the node itself first. *)
Definition all_ids (n : MindMapNode) : list (option string) := mm_id <$> subnodes n.

(** The tree of the end-to-end scenario. *)
Definition sample_tree : MindMapNode :=
  MkMindMapNode None "A"
    [MkMindMapNode None "B" [];
     MkMindMapNode None "C" [MkMindMapNode None "D" []]].

(** [getTextWidth] where no 2d context is to be had: [text.length * 8]. *)
Definition fallbackTextWidth (text font : string) : Q :=
  (inject_Z (Z.of_nat (String.length text)) * 8)%Q.

(** The two ends of the links a layout lists. *)
Definition link_ends (L : LayoutState) : list (addr * addr) :=
  (λ l, (ll_source l, ll_target l)) <$> st_links L.

(** The labels of the nodes a layout lists, read through the store. *)
Definition node_names (L : LayoutState) : list (option string) :=
  (λ a, ln_name <$> st_store L !! a) <$> st_nodes L.

(** What [buildHierarchy] leaves in the store: the new objects follow
    the old ones, they are the addresses of [t] in building order, they
    hold [t] below [p], and every node of [t] with children is centred. *)
Definition built_tree (p : option addr) (s s' : BuildState) (t : htree) : Prop :=
  ∃ ext,
    bs_store s' = bs_store s ++ ext
    ∧ h_addrs t = seq (length (bs_store s)) (length ext)
    ∧ hier (bs_store s') p t
    ∧ ∀ b, b ∈ h_addrs t → centred_at (bs_store s') b.

(** The same for the children of one node, built one after the other. *)
Definition built_forest (p : option addr) (s s' : BuildState) (ts : list htree) : Prop :=
  ∃ ext,
    bs_store s' = bs_store s ++ ext
    ∧ flat_map h_addrs ts = seq (length (bs_store s)) (length ext)
    ∧ Forall (hier (bs_store s') p) ts
    ∧ ∀ b, b ∈ flat_map h_addrs ts → centred_at (bs_store s') b.

(** ** The other handlers of the mind-map page *)

Local Open Scope Q_scope.

(** One contact of a touch event. *)
Record Touch : Type := MkTouch { touch_clientX : Q; touch_clientY : Q }.

(** The initial state of [viewBox], ['0 0 1000 1000']. *)
Definition initialViewBox : ViewBox := MkViewBox 0 0 1000 1000.

(** [handleTouchStart(e)], on [e.touches]. *)
Definition handleTouchStart (svg : option DOMRect) (touches : list Touch)
    (st : PageState) : PageState :=
  match touches with
  | [t] =>
      MkPageState (viewBox st) true (touch_clientX t, touch_clientY t)
        (match svg with
         | Some svgRect => Some svgRect
         | None => svgRectRef st
         end)
  | _ => st
  end.

(** [handleTouchEnd(e)] *)
Definition handleTouchEnd (st : PageState) : PageState :=
  MkPageState (viewBox st) false (dragStart st) None.

(** [handleTouchMove(e)], on [e.touches]. *)
Definition handleTouchMove (touches : list Touch) (st : PageState) : PageState :=
  match isDragging st, svgRectRef st, touches with
  | true, Some svgRect, [t] =>
      let '(MkViewBox x y w h) := viewBox st in
      let dx := (touch_clientX t - fst (dragStart st)) * (w / rect_width svgRect) in
      let dy := (touch_clientY t - snd (dragStart st)) * (h / rect_height svgRect) in
      MkPageState (MkViewBox (x - dx) (y - dy) w h)
        true (touch_clientX t, touch_clientY t) (svgRectRef st)
  | _, _, _ => st
  end.

(** The pointer events the drawing surface listens to; [onMouseLeave] runs
    [handleMouseUp]. *)
Inductive PointerOp : Type :=
| MouseDown (svg : option DOMRect) (e : MouseEvent)
| MouseMove (e : MouseEvent)
| MouseUp
| MouseLeave
| TouchStart (svg : option DOMRect) (touches : list Touch)
| TouchMove (touches : list Touch)
| TouchEnd.

Definition pointer_step (st : PageState) (op : PointerOp) : PageState :=
  match op with
  | MouseDown svg e => handleMouseDown svg e st
  | MouseMove e => handleMouseMove e st
  | MouseUp | MouseLeave => handleMouseUp st
  | TouchStart svg touches => handleTouchStart svg touches st
  | TouchMove touches => handleTouchMove touches st
  | TouchEnd => handleTouchEnd st
  end.

(** The event moves the pointer and does nothing else. *)
Definition is_move (op : PointerOp) : Prop :=
  match op with
  | MouseMove _ | TouchMove _ => True
  | _ => False
  end.

(** The two rectangles are the same numbers. *)
Definition ViewBox_eq (vb vb' : ViewBox) : Prop :=
  vb_x vb == vb_x vb' ∧ vb_y vb == vb_y vb'
  ∧ vb_w vb == vb_w vb' ∧ vb_h vb == vb_h vb'.

(** The factor a zoom command scales the width by, before the clamp. *)
Definition zoom_scale (op : ZoomOp) : Q :=
  match op with
  | ButtonZoom dir_out => 1.25
  | ButtonZoom dir_in => 1 / 1.25
  | WheelZoom e => if Qltb 0 (we_deltaY e) then 1.1 else 1 / 1.1
  end.

(** ** The mind map of the document page *)

Module MindMapComponent.

(** [handleWheel(e)], the width clamped with [Math.max] and [Math.min]. *)
Definition handleWheel (svg : option DOMRect) (e : WheelEvent)
    (st : PageState) : PageState :=
  match svg with
  | None => st
  | Some svgRect =>
      let '(MkViewBox vx vy vw vh) := viewBox st in
      let scale := if Qltb 0 (we_deltaY e) then 1.1 else 1 / 1.1 in
      let newW := Qmax MIN_ZOOM_WIDTH (Qmin MAX_ZOOM_WIDTH (vw * scale)) in
      let newH := vh * (newW / vw) in
      let mouseX := we_clientX e - rect_left svgRect in
      let mouseY := we_clientY e - rect_top svgRect in
      let svgX := vx + (mouseX / rect_width svgRect) * vw in
      let svgY := vy + (mouseY / rect_height svgRect) * vh in
      let newX := svgX - (mouseX / rect_width svgRect) * newW in
      let newY := svgY - (mouseY / rect_height svgRect) * newH in
      MkPageState (MkViewBox newX newY newW newH)
        (isDragging st) (dragStart st) (svgRectRef st)
  end.

(** [handleButtonZoom(direction)] *)
Definition handleButtonZoom (svg : option DOMRect) (direction : Direction)
    (st : PageState) : PageState :=
  match svg with
  | None => st
  | Some _ =>
      let '(MkViewBox vx vy vw vh) := viewBox st in
      let scale :=
        match direction with
        | dir_out => 1.25
        | dir_in => 1 / 1.25
        end in
      let newW := Qmax MIN_ZOOM_WIDTH (Qmin MAX_ZOOM_WIDTH (vw * scale)) in
      let newH := vh * (newW / vw) in
      MkPageState (MkViewBox (vx + (vw - newW) / 2) (vy + (vh - newH) / 2) newW newH)
        (isDragging st) (dragStart st) (svgRectRef st)
  end.

(** [handleInteractionStart(clientX, clientY)] *)
Definition handleInteractionStart (svg : option DOMRect) (clientX clientY : Q)
    (st : PageState) : PageState :=
  MkPageState (viewBox st) true (clientX, clientY)
    (match svg with
     | Some svgRect => Some svgRect
     | None => svgRectRef st
     end).

(** [handleInteractionMove(clientX, clientY)] *)
Definition handleInteractionMove (clientX clientY : Q) (st : PageState) : PageState :=
  match isDragging st, svgRectRef st with
  | true, Some svgRect =>
      let '(MkViewBox x y w h) := viewBox st in
      let dx := (clientX - fst (dragStart st)) * (w / rect_width svgRect) in
      let dy := (clientY - snd (dragStart st)) * (h / rect_height svgRect) in
      MkPageState (MkViewBox (x - dx) (y - dy) w h)
        true (clientX, clientY) (svgRectRef st)
  | _, _ => st
  end.

(** [handleInteractionEnd()] *)
Definition handleInteractionEnd (st : PageState) : PageState :=
  MkPageState (viewBox st) false (dragStart st) None.

End MindMapComponent.

Local Close Scope Q_scope.

(** ** Vocabulary for identifiers *)

(** The tree with its identifiers taken away. *)
Fixpoint strip_ids (n : MindMapNode) : MindMapNode :=
  match n with
  | MkMindMapNode _ topic children => MkMindMapNode None topic (map strip_ids children)
  end.

(** Every character of the text is an ASCII letter, a digit or the filler. *)
Fixpoint id_text (s : string) : Prop :=
  match s with
  | EmptyString => True
  | String c r => (is_alnum c = true ∨ c = "-"%char) ∧ id_text r
  end.

(** ** The multiple-choice page *)

Module MCQPage.

(** [interface MCQ] *)
Record MCQ : Type := MkMCQ {
  question : string;
  options : list string;
  correctAnswer : string
}.

(** The state [userAnswers] (an object keyed by question index),
    [isSubmitted] and [score]. *)
Record State : Type := MkState {
  userAnswers : gmap nat string;
  isSubmitted : bool;
  score : nat
}.

Definition initialState : State := MkState ∅ false 0.

(** [handleAnswerChange(questionIndex, answer)] *)
Definition handleAnswerChange (questionIndex : nat) (answer : string)
    (st : State) : State :=
  MkState (<[questionIndex := answer]> (userAnswers st)) (isSubmitted st) (score st).

(** The [forEach] of [handleSubmit], from the question at [index] on. *)
Fixpoint countCorrect (answers : gmap nat string) (index : nat) (mcqs : list MCQ)
    (correctCount : nat) : nat :=
  match mcqs with
  | [] => correctCount
  | mcq :: rest =>
      countCorrect answers (S index) rest
        (if bool_decide (answers !! index = Some (correctAnswer mcq))
         then S correctCount else correctCount)
  end.

(** [handleSubmit()]; [mcqSet] is [null] until the set is loaded. *)
Definition handleSubmit (mcqSet : option (list MCQ)) (st : State) : State :=
  match mcqSet with
  | None => st
  | Some mcqs => MkState (userAnswers st) true (countCorrect (userAnswers st) 0 mcqs 0)
  end.

(** [resetQuiz()] *)
Definition resetQuiz (st : State) : State := MkState ∅ false 0.

(** The [disabled] of the submit button:
    [Object.keys(userAnswers).length !== totalQuestions]. *)
Definition submitDisabled (mcqs : list MCQ) (st : State) : bool :=
  negb (size (userAnswers st) =? length mcqs).

End MCQPage.

(** ** The quiz page *)

Module QuizPage.

(** [type AnyQuizQuestion = MCQ | TrueFalseQuestion | ShortAnswerQuestion] *)
Inductive AnyQuizQuestion : Type :=
| MCQ (question : string) (options : list string) (correctAnswer : string)
| TrueFalseQuestion (question : string) (correctAnswer : bool)
| ShortAnswerQuestion (question : string) (idealAnswer : string).

(** A value of [userAnswers], of type [string | boolean]. *)
Inductive Answer : Type :=
| StringAnswer (s : string)
| BooleanAnswer (b : bool).

#[global] Instance Answer_eq_dec : EqDecision Answer.
Proof. solve_decision. Defined.

Record State : Type := MkState {
  userAnswers : gmap nat Answer;
  isSubmitted : bool;
  score : nat
}.

Definition initialState : State := MkState ∅ false 0.

(** [handleAnswerChange(qIndex, answer)] *)
Definition handleAnswerChange (qIndex : nat) (answer : Answer) (st : State) : State :=
  MkState (<[qIndex := answer]> (userAnswers st)) (isSubmitted st) (score st).

(** The test of [handleSubmit] on one question:
    [userAnswers[index] === q.correctAnswer] for the two graded types. *)
Definition isCorrect (answers : gmap nat Answer) (index : nat) (q : AnyQuizQuestion) : bool :=
  match q with
  | MCQ _ _ correctAnswer =>
      bool_decide (answers !! index = Some (StringAnswer correctAnswer))
  | TrueFalseQuestion _ correctAnswer =>
      bool_decide (answers !! index = Some (BooleanAnswer correctAnswer))
  | ShortAnswerQuestion _ _ => false
  end.

(** The [forEach] of [handleSubmit], from the question at [index] on. *)
Fixpoint countCorrect (answers : gmap nat Answer) (index : nat)
    (questions : list AnyQuizQuestion) (correctCount : nat) : nat :=
  match questions with
  | [] => correctCount
  | q :: rest =>
      countCorrect answers (S index) rest
        (if isCorrect answers index q then S correctCount else correctCount)
  end.

(** [handleSubmit()] *)
Definition handleSubmit (quiz : option (list AnyQuizQuestion)) (st : State) : State :=
  match quiz with
  | None => st
  | Some questions =>
      MkState (userAnswers st) true (countCorrect (userAnswers st) 0 questions 0)
  end.

(** [resetQuiz()] *)
Definition resetQuiz (st : State) : State := MkState ∅ false 0.

(** [q.type !== 'short_answer'] *)
Definition isAutoGraded (q : AnyQuizQuestion) : bool :=
  match q with
  | ShortAnswerQuestion _ _ => false
  | _ => true
  end.

(** [quiz.data.questions.filter(q => q.type !== 'short_answer')] *)
Definition autoGradedQuestions (questions : list AnyQuizQuestion) : list AnyQuizQuestion :=
  List.filter isAutoGraded questions.

End QuizPage.

(** ** Vocabulary for the layout *)

(** The nodes of a tree that are shown, each with its depth: a node, and
    below it, when its identifier is in the expansion set, the shown nodes of
    its children in order. *)
Fixpoint visible_rows (expandedNodes : gset string) (depth : nat) (n : MindMapNode)
    : list (nat * MindMapNode) :=
  match n with
  | MkMindMapNode id _ children =>
      (depth, n)
      :: (if is_expanded expandedNodes id
          then flat_map (visible_rows expandedNodes (S depth)) children
          else [])
  end.

Definition visible (expandedNodes : gset string) (n : MindMapNode) : list MindMapNode :=
  snd <$> visible_rows expandedNodes 0 n.

(** The width [buildHierarchy] gives to the box of a node. *)
Definition nodeWidth (getTextWidth : string → string → Q) (nodeData : MindMapNode) : Q :=
  Qmax MIN_NODE_WIDTH (getTextWidth (mm_topic nodeData) node_font + NODE_HORIZONTAL_PADDING)%Q.

(** The layout node [n] is the one made for the shown node [row]. *)
Definition shows (getTextWidth : string → string → Q) (n : LayoutNode)
    (row : nat * MindMapNode) : Prop :=
  ln_sourceData n = row.2
  ∧ ln_id n = mm_id row.2
  ∧ ln_name n = mm_topic row.2
  ∧ ln_depth n = row.1
  ∧ ln_width n = nodeWidth getTextWidth row.2
  ∧ ln_height n = NODE_HEIGHT.

(** The layout node has a child for every child of its source when its
    identifier is in the expansion set, and none otherwise. *)
Definition children_shown (expandedNodes : gset string) (n : LayoutNode) : Prop :=
  length (ln_children n)
  = if is_expanded expandedNodes (mm_id (ln_sourceData n))
    then length (mm_children (ln_sourceData n))
    else 0.

(** A layout node without rendered children. *)
Definition is_leaf (n : LayoutNode) : bool :=
  match ln_children n with
  | [] => true
  | _ => false
  end.

Definition leaf_ys (l : list LayoutNode) : list Q := ln_y <$> List.filter is_leaf l.

(** [yCounter += NODE_HEIGHT + VERTICAL_SPACING] *)
Definition next_slot (y : Q) : Q := (y + (NODE_HEIGHT + VERTICAL_SPACING))%Q.

(** The [k] slots handed out from the counter value [y] on. *)
Fixpoint slots (y : Q) (k : nat) : list Q :=
  match k with
  | O => []
  | S k' => y :: slots (next_slot y) k'
  end.

(** What [buildHierarchy] appends to the store for the shown nodes [rows],
    and what it does to the counter. *)
Definition rows_built (expandedNodes : gset string) (getTextWidth : string → string → Q)
    (rows : list (nat * MindMapNode)) (s s' : BuildState) : Prop :=
  ∃ ext,
    bs_store s' = bs_store s ++ ext
    ∧ Forall2 (shows getTextWidth) ext rows
    ∧ Forall (children_shown expandedNodes) ext
    ∧ leaf_ys ext = slots (bs_yCounter s) (length (leaf_ys ext))
    ∧ bs_yCounter s' = Nat.iter (length (leaf_ys ext)) next_slot (bs_yCounter s).

(** The horizontal rule of [positionNodes] at the node [b]: a node with a
    parent sits a fixed gap to the right of the parent's box, the root sits a
    fixed margin from the left edge of the container. *)
Definition x_rule (containerWidth : Q) (h : store) (b : addr) : Prop :=
  ∀ n, h !! b = Some n →
    match ln_parent n with
    | Some q =>
        ∃ pn, h !! q = Some pn
              ∧ ln_x n = (ln_x pn + (ln_width pn / 2 + HORIZONTAL_SPACING + ln_width n / 2))%Q
    | None => ln_x n = ((- containerWidth / 2) + (ln_width n / 2) + 50)%Q
    end.

(** The numbers of the path from the parent [ns] to the child [nt]. *)
Definition link_path (ns nt : LayoutNode) : LinkPath :=
  let sx := (ln_x ns + ln_width ns / 2 + CHEVRON_OFFSET)%Q in
  let sy := ln_y ns in
  let tx := (ln_x nt - ln_width nt / 2)%Q in
  let ty := ln_y nt in
  let c1x := (sx + (HORIZONTAL_SPACING / 1.5))%Q in
  let c2x := (tx - (HORIZONTAL_SPACING / 1.5))%Q in
  MkLinkPath sx sy c1x c2x tx ty.

(** The link joins a node to its parent, and is named and drawn from the
    two as the store has them. *)
Definition link_ok (h : store) (l : LayoutLink) : Prop :=
  ∃ ns nt,
    h !! ll_source l = Some ns
    ∧ h !! ll_target l = Some nt
    ∧ ln_parent nt = Some (ll_source l)
    ∧ ll_id l = show_id (ln_id ns) +:+ "-" +:+ show_id (ln_id nt)
    ∧ ll_d l = link_path ns nt.

(** What [positionNodes] leaves behind for a hierarchy with addresses [A]
    below the parent [p]: nothing else is touched, no object changes but in
    its position, the nodes of [A] obey the horizontal rule, and the new
    links are those of [A], one into each node that has a parent, in the
    order of [A]. *)
Definition placed (containerWidth : Q) (p : option addr) (A : list addr)
    (st st' : LayoutState) : Prop :=
  (∀ b, b ∉ A → st_store st' !! b = st_store st !! b)
  ∧ (∀ b n, st_store st !! b = Some n →
            ∃ n', st_store st' !! b = Some n' ∧ same_but_xy n n')
  ∧ (∀ b, b ∈ A → x_rule containerWidth (st_store st') b)
  ∧ ∃ L, st_links st' = st_links st ++ L
         ∧ Forall (link_in p A) L
         ∧ Forall (link_ok (st_store st')) L
         ∧ ll_target <$> L = match p with Some _ => A | None => tail A end.

(** The node objects a layout lists, read through the store. *)
Definition layout_nodes (L : LayoutState) : list LayoutNode :=
  omap (λ a, st_store L !! a) (st_nodes L).

(** ** The layout in double precision

    The numbers of the running program are IEEE 754 doubles.  This module
    repeats the layout pass over the binary64 floats of the kernel,
    operation for operation and in the order of the source, for the
    statements that rounding decides. *)
Module Double.
Import PrimFloat.
Local Open Scope float_scope.

Definition NODE_HEIGHT : float := 50.
Definition HORIZONTAL_SPACING : float := 60.
Definition VERTICAL_SPACING : float := 20.
Definition NODE_HORIZONTAL_PADDING : float := 40.
Definition MIN_NODE_WIDTH : float := 120.
Definition CHEVRON_OFFSET : float := 16.

(** A natural number (the length of an array, a literal) as a number. *)
Definition of_nat (n : nat) : float := of_uint63 (Uint63.of_Z (Z.of_nat n)).

(** [Math.max(a, b)]: [NaN] if either is, and of two zeros the positive one. *)
Definition Math_max (a b : float) : float :=
  if is_nan a || is_nan b then nan
  else if a <? b then b
  else if b <? a then a
  else if is_zero a then a + b
  else a.

(** [type LayoutNode]: [children] and [parent] are references. *)
Record LayoutNode : Type := MkLayoutNode {
  ln_id : option string;
  ln_name : string;
  ln_children : list addr;
  ln_x : float;
  ln_y : float;
  ln_depth : nat;
  ln_width : float;
  ln_height : float;
  ln_sourceData : MindMapNode;
  ln_parent : option addr
}.

Record LinkPath : Type := MkLinkPath {
  lp_sx : float; lp_sy : float; lp_c1x : float; lp_c2x : float; lp_tx : float; lp_ty : float
}.

Record LayoutLink : Type := MkLayoutLink {
  ll_id : string;
  ll_source : addr;
  ll_target : addr;
  ll_d : LinkPath
}.

Definition set_children (cs : list addr) (n : LayoutNode) : LayoutNode :=
  MkLayoutNode (ln_id n) (ln_name n) cs (ln_x n) (ln_y n) (ln_depth n)
    (ln_width n) (ln_height n) (ln_sourceData n) (ln_parent n).
Definition set_x (x : float) (n : LayoutNode) : LayoutNode :=
  MkLayoutNode (ln_id n) (ln_name n) (ln_children n) x (ln_y n) (ln_depth n)
    (ln_width n) (ln_height n) (ln_sourceData n) (ln_parent n).
Definition set_y (y : float) (n : LayoutNode) : LayoutNode :=
  MkLayoutNode (ln_id n) (ln_name n) (ln_children n) (ln_x n) y (ln_depth n)
    (ln_width n) (ln_height n) (ln_sourceData n) (ln_parent n).

Abbreviation store := (list LayoutNode).

(** [child.y], read through the reference. *)
Definition y_of (h : store) (a : addr) : float :=
  match h !! a with
  | Some n => ln_y n
  | None => 0
  end.

Record BuildState : Type := MkBuildState {
  bs_store : store;
  bs_yCounter : float
}.

Record LayoutState : Type := MkLayoutState {
  st_store : store;
  st_nodes : list addr;
  st_links : list LayoutLink
}.

(** The fallback of [getTextWidth], taken when the canvas gives no context:
    [text.length * 8]. *)
Definition fallbackTextWidth (text font : string) : float :=
  of_nat (String.length text) * 8.

Section Layout.
Variable expandedNodes : gset string.
Variable getTextWidth : string → string → float.

Fixpoint buildHierarchy (nodeData : MindMapNode) (depth : nat)
    (parent : option addr) (s : BuildState) : addr * BuildState :=
  match nodeData with
  | MkMindMapNode id topic children =>
      let isExpanded := is_expanded expandedNodes id in
      let textWidth := getTextWidth topic node_font in
      let nodeWidth := Math_max MIN_NODE_WIDTH (textWidth + NODE_HORIZONTAL_PADDING) in
      let layoutNode := length (bs_store s) in
      let s0 :=
        MkBuildState
          (bs_store s ++
             [MkLayoutNode id topic [] 0 0 depth nodeWidth NODE_HEIGHT nodeData parent])
          (bs_yCounter s) in
      let '(kids, s1) :=
        if isExpanded
        then map_state (λ child, buildHierarchy child (S depth) (Some layoutNode))
               children s0
        else ([], s0) in
      let h := alter (set_children kids) layoutNode (bs_store s1) in
      if (0 <? length kids)%nat then
        let childrenYSum := fold_left (λ sum child, sum + y_of h child) kids 0 in
        (layoutNode,
         MkBuildState
           (alter (set_y (childrenYSum / of_nat (length kids))) layoutNode h)
           (bs_yCounter s1))
      else
        (layoutNode,
         MkBuildState
           (alter (set_y (bs_yCounter s1)) layoutNode h)
           (bs_yCounter s1 + (NODE_HEIGHT + VERTICAL_SPACING)))
  end.

Variable containerWidth : float.

Fixpoint positionNodes (fuel : nat) (node : addr) (yOffset parentX parentWidth : float)
    (st : LayoutState) : option LayoutState :=
  match fuel with
  | O => None
  | S fuel' =>
      n ← st_store st !! node;
      let x :=
        match ln_parent n with
        | Some _ => parentX + (parentWidth / 2 + HORIZONTAL_SPACING + ln_width n / 2)
        | None => (- containerWidth / 2) + (ln_width n / 2) + 50
        end in
      let n1 := set_y (ln_y n + yOffset) (set_x x n) in
      let h1 := <[node := n1]> (st_store st) in
      let nodes1 := st_nodes st ++ [node] in
      links1 ←
        match ln_parent n1 with
        | Some p =>
            pn ← h1 !! p;
            let sx := ln_x pn + ln_width pn / 2 + CHEVRON_OFFSET in
            let sy := ln_y pn in
            let tx := ln_x n1 - ln_width n1 / 2 in
            let ty := ln_y n1 in
            let c1x := sx + (HORIZONTAL_SPACING / 1.5) in
            let c2x := tx - (HORIZONTAL_SPACING / 1.5) in
            Some (st_links st ++
                    [MkLayoutLink (show_id (ln_id pn) +:+ "-" +:+ show_id (ln_id n1))
                       p node (MkLinkPath sx sy c1x c2x tx ty)])
        | None => Some (st_links st)
        end;
      for_each
        (λ child st',
           cur ← st_store st' !! node;
           positionNodes fuel' child yOffset (ln_x cur) (ln_width cur) st')
        (ln_children n1)
        (MkLayoutState h1 nodes1 links1)
  end.

Definition calculateLayout (rootNode : MindMapNode) : option LayoutState :=
  let '(hierarchy, s) := buildHierarchy rootNode 0 None (MkBuildState [] 0) in
  let yCorrection := - y_of (bs_store s) hierarchy in
  positionNodes (length (bs_store s)) hierarchy yCorrection 0 0
    (MkLayoutState (bs_store s) [] []).
End Layout.

(** The [y] of the children of a node, read through their references. *)
Definition children_y (h : store) (n : LayoutNode) : option (list float) :=
  mapM (λ c, ln_y <$> h !! c) (ln_children n).

(** The arithmetic mean of the numbers, summed from the left and divided as
    [buildHierarchy] does. *)
Definition mean (ys : list float) : float :=
  fold_left (λ sum y, sum + y) ys 0 / of_nat (length ys).

(** The rational number a finite double stands for. *)
Definition value (x : float) : option Q :=
  match FloatOps.Prim2SF x with
  | SpecFloat.S754_zero _ => Some 0%Q
  | SpecFloat.S754_finite s m e =>
      Some (inject_Z (if s then Z.neg m else Z.pos m) * Qpower 2 e)%Q
  | _ => None
  end.

(** [y] is the arithmetic mean of [ys]: the mean as the program computes
    it, or the mean of the numbers the doubles stand for. *)
Definition is_mean (y : float) (ys : list float) : Prop :=
  eqb y (mean ys) = true
  ∨ ∃ q qs, value y = Some q ∧ mapM value ys = Some qs ∧ (q == Qmean qs)%Q.
End Double.

(** A tree whose layout divides by three. *)
Definition thirds_tree : MindMapNode :=
  MkMindMapNode None "R"
    [MkMindMapNode None "B" [];
     MkMindMapNode None "C" [];
     MkMindMapNode None "D" [MkMindMapNode None "E" []; MkMindMapNode None "F" []]].

(** * Properties *)

(** ** Strings *)

Lemma string_app_nil (s : string) : EmptyString +:+ s = s.
Proof. reflexivity. Qed.

Lemma string_app_cons (a : ascii) (s t : string) :
  String a s +:+ t = String a (s +:+ t).
Proof. reflexivity. Qed.

Lemma string_app_assoc (s t u : string) : (s +:+ t) +:+ u = s +:+ (t +:+ u).
Proof.
  induction s as [|a s IH]; [reflexivity|].
  rewrite !string_app_cons. by rewrite IH.
Qed.

Lemma string_app_length (s t : string) :
  String.length (s +:+ t) = String.length s + String.length t.
Proof.
  induction s as [|a s IH]; [reflexivity|].
  rewrite string_app_cons. simpl. by rewrite IH.
Qed.

Lemma string_app_ne_self (s : string) (a : ascii) (t : string) :
  s +:+ String a t ≠ s.
Proof.
  intros Heq. apply (f_equal String.length) in Heq.
  rewrite string_app_length in Heq. simpl in Heq. lia.
Qed.

Lemma no_dash_index_str (i : nat) : no_dash (index_str i).
Proof.
  unfold index_str. generalize (Nat.to_uint i). intros d.
  induction d; simpl; auto.
Qed.

Lemma dash_split (s1 s2 r1 r2 : string) :
  no_dash s1 → no_dash s2 →
  s1 +:+ String "-" r1 = s2 +:+ String "-" r2 → s1 = s2.
Proof.
  revert s2. induction s1 as [|a s1 IH]; intros [|b s2]; simpl;
    rewrite ?string_app_nil, ?string_app_cons; intros H1 H2 Heq.
  - reflexivity.
  - injection Heq as <- _. by destruct H2.
  - injection Heq as -> _. by destruct H1.
  - injection Heq as -> Heq. f_equal. destruct H1, H2. eauto.
Qed.

Lemma index_str_inj (i j : nat) : index_str i = index_str j → i = j.
Proof.
  unfold index_str. intros Heq. apply Unsigned.to_uint_inj.
  apply (f_equal NilEmpty.uint_of_string) in Heq.
  rewrite !NilEmpty.usu in Heq. by injection Heq.
Qed.

(** Two texts [index-rest] that are equal start with the same index. *)
Lemma index_dash_inj (i j : nat) (r1 r2 : string) :
  index_str i +:+ "-" +:+ r1 = index_str j +:+ "-" +:+ r2 → i = j.
Proof.
  intros Heq. apply index_str_inj.
  apply (dash_split _ _ r1 r2); auto using no_dash_index_str.
Qed.

Lemma sanitize_get (k : nat) (s : string) :
  String.get k (sanitize s)
  = (λ c, if is_alnum c then c else "-"%char) <$> String.get k s.
Proof.
  revert k. induction s as [|c s IH]; intros [|k]; simpl; auto.
Qed.

Lemma sanitize_length (s : string) : String.length (sanitize s) = String.length s.
Proof. induction s; simpl; auto. Qed.

(** ** Identifier assignment *)

Example addIds_sample :
  addIds (MkMindMapNode None "A b"
            [MkMindMapNode None "B" []; MkMindMapNode None "B" []]) root_prefix
  = MkMindMapNode (Some "root-A-b") "A b"
      [MkMindMapNode (Some "root-A-b-0-B") "B" [];
       MkMindMapNode (Some "root-A-b-1-B") "B" []].
Proof. reflexivity. Qed.

Lemma imap_from_lookup {A B : Type} (f : nat → A → B) (k i : nat) (l : list A) :
  imap_from f k l !! i = f (k + i) <$> l !! i.
Proof.
  revert k i. induction l as [|x l IH]; intros k [|i]; simpl; auto.
  - by rewrite Nat.add_0_r.
  - rewrite IH. by rewrite Nat.add_succ_r.
Qed.

Lemma subnodes_unfold (n : MindMapNode) :
  subnodes n = n :: flat_map subnodes (mm_children n).
Proof. by destruct n. Qed.

Lemma addIds_unfold (t : MindMapNode) (prefix : string) :
  addIds t prefix
  = MkMindMapNode (Some (prefix +:+ "-" +:+ sanitize (mm_topic t))) (mm_topic t)
      (imap_from
         (λ i child,
            addIds child ((prefix +:+ "-" +:+ sanitize (mm_topic t)) +:+ "-" +:+ index_str i))
         0 (mm_children t)).
Proof. by destruct t. Qed.

(** Every node of an identified tree was made by [addIds]. *)
Lemma subnodes_addIds (t : MindMapNode) :
  ∀ prefix n, n ∈ subnodes (addIds t prefix) → ∃ t' prefix', n = addIds t' prefix'.
Proof.
  induction t as [i tp cs IH] using MindMapNode_ind. intros prefix n.
  rewrite subnodes_unfold. intros [->|Hin]%elem_of_cons; [eauto|].
  rewrite addIds_unfold in Hin. simpl in Hin.
  apply list_elem_of_In, in_flat_map in Hin as (c' & Hc' & Hn).
  apply list_elem_of_In, list_elem_of_lookup in Hc' as [j Hj].
  rewrite imap_from_lookup in Hj.
  destruct (cs !! j) as [c|] eqn:Hc; [|done]. simpl in Hj. injection Hj as <-.
  rewrite Forall_lookup in IH. eapply (IH j c Hc). by apply list_elem_of_In.
Qed.

(** C3: in an identified tree the [index]-th child of a node has the
    identifier parentId-index-sanitize(label), the index before the label;
    [sanitize] keeps the length and puts the filler at every character that
    is not an ASCII letter or digit. *)
Theorem addIds_child_id (t : MindMapNode) (prefix : string)
    (parent child : MindMapNode) (index : nat) :
  parent ∈ subnodes (addIds t prefix) →
  mm_children parent !! index = Some child →
  (∃ parentId,
     mm_id parent = Some parentId
     ∧ mm_id child = Some (index_then_label_id parentId (mm_topic child) index))
  ∧ ∀ k, String.get k (sanitize (mm_topic child))
         = (λ c, if is_alnum c then c else "-"%char) <$> String.get k (mm_topic child).
Proof.
  intros Hparent Hchild. split; [|intros k; apply sanitize_get].
  apply subnodes_addIds in Hparent as (t' & prefix' & ->).
  rewrite addIds_unfold in Hchild |- *. simpl in Hchild |- *.
  eexists. split; [reflexivity|].
  rewrite imap_from_lookup in Hchild.
  destruct (mm_children t' !! index) as [c|]; [|done].
  simpl in Hchild. injection Hchild as <-.
  rewrite addIds_unfold. simpl. unfold index_then_label_id.
  by rewrite !string_app_assoc.
Qed.

Lemma addIds_child_id_witness :
  let t := MkMindMapNode None "A" [MkMindMapNode None "B c" []] in
  (∃ parentId,
     mm_id (addIds t root_prefix) = Some parentId
     ∧ mm_id (MkMindMapNode (Some "root-A-0-B-c") "B c" [])
       = Some (index_then_label_id parentId "B c" 0))
  ∧ ∀ k, String.get k (sanitize "B c")
         = (λ c, if is_alnum c then c else "-"%char) <$> String.get k "B c".
Proof.
  apply (addIds_child_id (MkMindMapNode None "A" [MkMindMapNode None "B c" []])
           root_prefix
           (addIds (MkMindMapNode None "A" [MkMindMapNode None "B c" []]) root_prefix)
           (MkMindMapNode (Some "root-A-0-B-c") "B c" []) 0).
  - vm_compute. left.
  - reflexivity.
Defined.

(** C3 as the specification words it (label before index) fails: the only
    child of a root labelled A, itself labelled B, gets root-A-0-B and not
    root-A-B-0. *)
Lemma addIds_child_id_label_then_index_fails :
  ¬ (∀ (t : MindMapNode) (parent child : MindMapNode) (index : nat) (parentId : string),
       parent ∈ subnodes (addIds t root_prefix) →
       mm_children parent !! index = Some child →
       mm_id parent = Some parentId →
       mm_id child = Some (label_then_index_id parentId (mm_topic child) index)).
Proof.
  intros Hclaim.
  specialize (Hclaim (MkMindMapNode None "A" [MkMindMapNode None "B" []])
                (addIds (MkMindMapNode None "A" [MkMindMapNode None "B" []]) root_prefix)
                (MkMindMapNode (Some "root-A-0-B") "B" []) 0 "root-A").
  discriminate Hclaim; [vm_compute; left | reflexivity | reflexivity].
Qed.

Lemma all_ids_unfold (n : MindMapNode) :
  all_ids n = mm_id n :: flat_map all_ids (mm_children n).
Proof.
  unfold all_ids. rewrite subnodes_unfold. simpl. f_equal.
  induction (mm_children n) as [|c cs IH]; simpl; [done|].
  rewrite fmap_app. f_equal. exact IH.
Qed.

(** Every identifier below [addIds t prefix] extends [prefix-]. *)
Lemma all_ids_prefix (t : MindMapNode) :
  ∀ prefix x, x ∈ all_ids (addIds t prefix) → ∃ r, x = Some (prefix +:+ "-" +:+ r).
Proof.
  induction t as [i tp cs IH] using MindMapNode_ind. intros prefix x.
  rewrite all_ids_unfold, addIds_unfold. simpl.
  intros [->|Hin]%elem_of_cons; [eauto|].
  apply list_elem_of_In, in_flat_map in Hin as (c' & Hc' & Hx).
  apply list_elem_of_In, list_elem_of_lookup in Hc' as [j Hj].
  rewrite imap_from_lookup in Hj.
  destruct (cs !! j) as [c|] eqn:Hc; [|done]. simpl in Hj. injection Hj as <-.
  rewrite Forall_lookup in IH.
  apply list_elem_of_In in Hx. apply (IH j c Hc) in Hx as [r ->].
  eexists. by rewrite !string_app_assoc.
Qed.

Section children_ids.
Variable id : string.

Let child (i : nat) (c : MindMapNode) : MindMapNode :=
  addIds c (id +:+ "-" +:+ index_str i).

(** An identifier below the children numbered from [k] on names an index
    that is at least [k]. *)
Lemma children_ids_index (cs : list MindMapNode) :
  ∀ k x, x ∈ flat_map all_ids (imap_from child k cs) →
    ∃ j r, k ≤ j ∧ x = Some (id +:+ "-" +:+ index_str j +:+ "-" +:+ r).
Proof.
  induction cs as [|c cs IH]; intros k x; simpl; [by intros ?%elem_of_nil|].
  intros [Hx|Hx]%elem_of_app.
  - apply all_ids_prefix in Hx as [r ->]. exists k, r.
    split; [lia|]. by rewrite !string_app_assoc.
  - apply IH in Hx as (j & r & Hj & ->). exists j, r. split; [lia|done].
Qed.

Lemma children_ids_NoDup (cs : list MindMapNode) :
  Forall (λ c, ∀ prefix, NoDup (all_ids (addIds c prefix))) cs →
  ∀ k, NoDup (flat_map all_ids (imap_from child k cs)).
Proof.
  induction 1 as [|c cs Hc _ IH]; intros k; simpl; [constructor|].
  apply NoDup_app. split_and!; [apply Hc | | apply IH].
  intros x Hx1 Hx2.
  apply all_ids_prefix in Hx1 as [r1 ->].
  apply children_ids_index in Hx2 as (j & r2 & Hj & Heq).
  injection Heq as Heq. rewrite !string_app_assoc in Heq.
  apply (inj (String.app id)), (inj (String.app "-")) in Heq.
  apply index_dash_inj in Heq. lia.
Qed.
End children_ids.

(** C4: the identifiers [addIds] assigns in one tree are pairwise
    distinct, whatever the labels are. *)
Theorem addIds_ids_distinct (t : MindMapNode) (prefix : string) :
  NoDup (mm_id <$> subnodes (addIds t prefix)).
Proof.
  change (NoDup (all_ids (addIds t prefix))). revert prefix.
  induction t as [i tp cs IH] using MindMapNode_ind. intros prefix.
  rewrite all_ids_unfold, addIds_unfold. simpl.
  apply NoDup_cons. split; [|by apply children_ids_NoDup].
  intros Hin. apply children_ids_index in Hin as (j & r & _ & Heq).
  injection Heq as Heq. symmetry in Heq.
  exact (string_app_ne_self _ "-"%char (index_str j +:+ "-" +:+ r) Heq).
Qed.

(** Two siblings with the label Overview get different identifiers. *)
Example addIds_same_label_siblings :
  all_ids (addIds (MkMindMapNode None "Topics"
                     [MkMindMapNode None "Overview" [];
                      MkMindMapNode None "Overview" []]) root_prefix)
  = [Some "root-Topics"; Some "root-Topics-0-Overview"; Some "root-Topics-1-Overview"].
Proof. reflexivity. Qed.

(** ** The expansion set *)

(** C9: toggling an identifier twice gives back the expansion set, and
    toggling an identifier that is not in the set adds exactly that one. *)
Theorem toggleNode_round_trip (nodeId : string) (prev : gset string) :
  toggleNode nodeId (toggleNode nodeId prev) = prev
  ∧ (nodeId ∉ prev → toggleNode nodeId prev = prev ∪ {[ nodeId ]}).
Proof.
  split.
  - unfold toggleNode. destruct (decide (nodeId ∈ prev)) as [Hin|Hout].
    + rewrite (bool_decide_eq_true_2 _ Hin).
      rewrite bool_decide_eq_false_2 by set_solver.
      apply set_eq. intros x. destruct (decide (x = nodeId)); set_solver.
    + rewrite (bool_decide_eq_false_2 _ Hout).
      rewrite bool_decide_eq_true_2 by set_solver.
      set_solver.
  - intros Hnot. unfold toggleNode. by rewrite bool_decide_eq_false_2.
Qed.

Lemma toggleNode_round_trip_witness :
  toggleNode "root-A" (toggleNode "root-A" ∅) = ∅
  ∧ toggleNode "root-A" ∅ = (∅ ∪ {[ "root-A" ]} : gset string).
Proof.
  destruct (toggleNode_round_trip "root-A" ∅) as [Htwice Honce].
  split; [exact Htwice | apply Honce; apply not_elem_of_empty].
Defined.

(** ** The viewport *)

Local Open Scope Q_scope.

Lemma Qltb_true (a b : Q) : Qltb a b = true ↔ a < b.
Proof.
  unfold Qltb. rewrite negb_true_iff, <- not_true_iff_false, Qle_bool_iff.
  split; [apply Qnot_le_lt | apply Qlt_not_le].
Qed.

Lemma Qltb_false (a b : Q) : Qltb a b = false ↔ b <= a.
Proof. unfold Qltb. rewrite negb_false_iff. apply Qle_bool_iff. Qed.

Lemma clampWidth_bounds (w : Q) :
  MIN_ZOOM_WIDTH <= clampWidth w ∧ clampWidth w <= MAX_ZOOM_WIDTH.
Proof.
  unfold clampWidth.
  destruct (Qltb w MIN_ZOOM_WIDTH) eqn:Hlo;
    destruct (Qltb MAX_ZOOM_WIDTH _) eqn:Hhi;
    rewrite ?Qltb_true, ?Qltb_false in *; split;
    first [ assumption | apply Qle_refl | by apply Qlt_le_weak | done ].
Qed.

Lemma zoom_step_width (svgRect : DOMRect) (st : PageState) (op : ZoomOp) :
  MIN_ZOOM_WIDTH <= vb_w (viewBox (zoom_step svgRect st op))
  ∧ vb_w (viewBox (zoom_step svgRect st op)) <= MAX_ZOOM_WIDTH.
Proof.
  destruct op as [d|e], st as [[vx vy vw vh] drag start ref]; simpl;
    apply clampWidth_bounds.
Qed.

Lemma zoom_steps_width (svgRect : DOMRect) (ops : list ZoomOp) (st : PageState) :
  ops ≠ [] →
  MIN_ZOOM_WIDTH <= vb_w (viewBox (fold_left (zoom_step svgRect) ops st))
  ∧ vb_w (viewBox (fold_left (zoom_step svgRect) ops st)) <= MAX_ZOOM_WIDTH.
Proof.
  intros Hne. destruct (exists_last Hne) as (ops' & op & ->).
  rewrite fold_left_app. simpl. apply zoom_step_width.
Qed.

(** C6: after a wheel zoom the pixel under the pointer shows the same
    scene point as before, for a surface and a rectangle on which the
    divisions of the handler are defined. *)
Theorem handleWheel_keeps_focus (svgRect : DOMRect) (e : WheelEvent) (st : PageState) :
  ¬ rect_width svgRect == 0 →
  ¬ rect_height svgRect == 0 →
  ¬ vb_w (viewBox st) == 0 →
  let px := we_clientX e - rect_left svgRect in
  let py := we_clientY e - rect_top svgRect in
  let st' := handleWheel (Some svgRect) e st in
  sceneX (viewBox st') svgRect px == sceneX (viewBox st) svgRect px
  ∧ sceneY (viewBox st') svgRect py == sceneY (viewBox st) svgRect py.
Proof.
  intros _ _ _. destruct st as [[vx vy vw vh] drag start ref].
  unfold sceneX, sceneY. simpl. split; ring.
Qed.

Lemma handleWheel_keeps_focus_witness :
  let svgRect := MkDOMRect 10 20 1000 800 in
  let e := MkWheelEvent (-1) 310 420 in
  let st := MkPageState (MkViewBox (-500) (-400) 1000 800) false (0, 0) None in
  sceneX (viewBox (handleWheel (Some svgRect) e st)) svgRect (310 - 10)
    == sceneX (viewBox st) svgRect (310 - 10)
  ∧ sceneY (viewBox (handleWheel (Some svgRect) e st)) svgRect (420 - 20)
    == sceneY (viewBox st) svgRect (420 - 20).
Proof.
  apply (handleWheel_keeps_focus (MkDOMRect 10 20 1000 800) (MkWheelEvent (-1) 310 420)
           (MkPageState (MkViewBox (-500) (-400) 1000 800) false (0, 0) None));
    simpl; intros H; discriminate H.
Defined.

(** C7: along a run of zoom-in commands (buttons or wheel) the width is
    never below [MIN_ZOOM_WIDTH], and along a run of zoom-out commands it is
    never above [MAX_ZOOM_WIDTH]; [k] counts the commands done so far. *)
Theorem zoom_width_clamped (svgRect : DOMRect) (st : PageState)
    (ops : list ZoomOp) (k : nat) :
  (length ops ≤ 100)%nat →
  (1 ≤ k ≤ length ops)%nat →
  (Forall zooms_in ops →
   MIN_ZOOM_WIDTH <= vb_w (viewBox (fold_left (zoom_step svgRect) (take k ops) st)))
  ∧ (Forall zooms_out ops →
     vb_w (viewBox (fold_left (zoom_step svgRect) (take k ops) st)) <= MAX_ZOOM_WIDTH).
Proof.
  intros _ [Hk1 Hk2].
  assert (take k ops ≠ []) as Hne.
  { intros Hnil. apply (f_equal length) in Hnil. rewrite length_take in Hnil.
    simpl in Hnil. lia. }
  pose proof (zoom_steps_width svgRect (take k ops) st Hne) as [Hlo Hhi].
  split; intros _; assumption.
Qed.

Lemma zoom_width_clamped_witness :
  let svgRect := MkDOMRect 0 0 1000 800 in
  let st := MkPageState (MkViewBox 0 0 210 168) false (0, 0) None in
  MIN_ZOOM_WIDTH
    <= vb_w (viewBox (fold_left (zoom_step svgRect)
                        (take 2 [ButtonZoom dir_in; WheelZoom (MkWheelEvent (-3) 5 5)]) st))
  ∧ vb_w (viewBox (fold_left (zoom_step svgRect)
                     (take 2 [ButtonZoom dir_out; WheelZoom (MkWheelEvent 3 5 5)])
                     (MkPageState (MkViewBox 0 0 7900 6320) false (0, 0) None)))
    <= MAX_ZOOM_WIDTH.
Proof.
  split.
  - apply (zoom_width_clamped (MkDOMRect 0 0 1000 800)
             (MkPageState (MkViewBox 0 0 210 168) false (0, 0) None)
             [ButtonZoom dir_in; WheelZoom (MkWheelEvent (-3) 5 5)] 2);
      simpl; [lia | lia |].
    repeat constructor. simpl. intros H; discriminate H.
  - apply (zoom_width_clamped (MkDOMRect 0 0 1000 800)
             (MkPageState (MkViewBox 0 0 7900 6320) false (0, 0) None)
             [ButtonZoom dir_out; WheelZoom (MkWheelEvent 3 5 5)] 2);
      simpl; [lia | lia |].
    repeat constructor.
Defined.

(** C8: with a rectangle 1000 wide over a surface 1000 pixels wide, a
    press at (100,100) and a move to (150,100) shift the rectangle by -50
    along x and leave y, width and height as they were. *)
Theorem pan_translates_by_minus_50 (svgRect : DOMRect) (st : PageState) :
  vb_w (viewBox st) == 1000 →
  rect_width svgRect == 1000 →
  ¬ rect_height svgRect == 0 →
  let st' :=
    handleMouseMove (MkMouseEvent 150 100)
      (handleMouseDown (Some svgRect) (MkMouseEvent 100 100) st) in
  vb_x (viewBox st') == vb_x (viewBox st) - 50
  ∧ vb_y (viewBox st') == vb_y (viewBox st)
  ∧ vb_w (viewBox st') = vb_w (viewBox st)
  ∧ vb_h (viewBox st') = vb_h (viewBox st).
Proof.
  destruct st as [[vx vy vw vh] drag start ref], svgRect as [l t w h].
  simpl. intros Hvw Hw Hh. repeat split.
  - rewrite Hvw, Hw. field.
  - field. exact Hh.
Qed.

Lemma pan_translates_by_minus_50_witness :
  let svgRect := MkDOMRect 0 0 1000 600 in
  let st := MkPageState (MkViewBox (-500) (-300) 1000 600) false (0, 0) None in
  let st' :=
    handleMouseMove (MkMouseEvent 150 100)
      (handleMouseDown (Some svgRect) (MkMouseEvent 100 100) st) in
  vb_x (viewBox st') == vb_x (viewBox st) - 50
  ∧ vb_y (viewBox st') == vb_y (viewBox st)
  ∧ vb_w (viewBox st') = vb_w (viewBox st)
  ∧ vb_h (viewBox st') = vb_h (viewBox st).
Proof.
  apply (pan_translates_by_minus_50 (MkDOMRect 0 0 1000 600)
           (MkPageState (MkViewBox (-500) (-300) 1000 600) false (0, 0) None));
    simpl; [reflexivity | reflexivity | intros H; discriminate H].
Defined.

Local Close Scope Q_scope.

(** ** The layout: sums and means *)

Local Open Scope Q_scope.

Lemma fold_left_Qsum {A : Type} (g : A → Q) (l : list A) (acc : Q) :
  fold_left (λ sum x, sum + g x) l acc == acc + Qsum (g <$> l).
Proof.
  revert acc. induction l as [|x l IH]; intros acc; simpl.
  - ring.
  - rewrite IH. unfold fmap. ring.
Qed.

Lemma Qsum_shift {A : Type} (g g' : A → Q) (off : Q) (l : list A) :
  (∀ x, x ∈ l → g' x = g x + off) →
  Qsum (g' <$> l) == Qsum (g <$> l) + inject_Z (Z.of_nat (length l)) * off.
Proof.
  induction l as [|x l IH]; intros Hg.
  - simpl. ring.
  - change (g' x + Qsum (g' <$> l)
            == g x + Qsum (g <$> l) + inject_Z (Z.of_nat (S (length l))) * off).
    rewrite IH by (intros y Hy; apply Hg; by right).
    rewrite (Hg x) by left.
    rewrite Nat2Z.inj_succ. unfold Z.succ. rewrite inject_Z_plus. ring.
Qed.

Lemma inject_Z_length_nonzero {A : Type} (l : list A) :
  l ≠ [] → ¬ inject_Z (Z.of_nat (length l)) == 0.
Proof.
  intros Hne Hz. destruct l as [|x l]; [done|].
  unfold Qeq in Hz. simpl in Hz. lia.
Qed.

(** Moving every child by [off] moves the mean by [off]. *)
Lemma y_mean_shift (h h' : store) (off : Q) (kids : list addr) :
  kids ≠ [] →
  (∀ c, c ∈ kids → y_of h' c = y_of h c + off) →
  y_mean h' kids == y_mean h kids + off.
Proof.
  intros Hne Hy. unfold y_mean. rewrite !fold_left_Qsum.
  rewrite (Qsum_shift (y_of h) (y_of h') off kids Hy).
  field. by apply inject_Z_length_nonzero.
Qed.

Lemma y_mean_agree (h h' : store) (kids : list addr) :
  (∀ c, c ∈ kids → h' !! c = h !! c) → y_mean h' kids = y_mean h kids.
Proof.
  intros Hagree. unfold y_mean. f_equal.
  generalize 0. induction kids as [|c kids IH]; intros acc; simpl; [done|].
  unfold y_of at 2 4. rewrite (Hagree c) by left.
  apply IH. intros c' Hc'. apply Hagree. by right.
Qed.

(** When the children resolve, the assigned value is the mean of their [y]. *)
Lemma y_mean_children_y (h : store) (n : LayoutNode) (ys : list Q) :
  children_y h n = Some ys → y_mean h (ln_children n) == Qmean ys.
Proof.
  unfold children_y, y_mean, Qmean. intros Hys.
  apply mapM_Some in Hys.
  rewrite fold_left_Qsum.
  assert (y_of h <$> ln_children n = ys) as ->.
  { induction Hys as [|c y cs ys Hc _ IH]; simpl; [done|].
    f_equal; [|exact IH]. unfold y_of.
    destruct (h !! c); simpl in Hc; by simplify_eq. }
  rewrite (Forall2_length _ _ _ Hys) at 1.
  unfold Qdiv. ring.
Qed.

Local Close Scope Q_scope.

(** ** The layout: hierarchies in the store *)

Lemma elem_of_flat_map {A B : Type} (f : A → list B) (l : list A) (b : B) :
  b ∈ flat_map f l ↔ ∃ x, x ∈ l ∧ b ∈ f x.
Proof.
  rewrite list_elem_of_In, in_flat_map.
  split; intros (x & Hx & Hb); exists x; by rewrite ?list_elem_of_In in *.
Qed.

Lemma same_but_xy_refl (n : LayoutNode) : same_but_xy n n.
Proof. reflexivity. Qed.

Lemma same_but_xy_trans (n1 n2 n3 : LayoutNode) :
  same_but_xy n1 n2 → same_but_xy n2 n3 → same_but_xy n1 n3.
Proof. unfold same_but_xy. congruence. Qed.

Lemma same_but_xy_moved (n : LayoutNode) (x y : Q) :
  same_but_xy n (set_y y (set_x x n)).
Proof. reflexivity. Qed.

Lemma same_but_xy_fields (n n' : LayoutNode) :
  same_but_xy n n' →
  ln_children n = ln_children n' ∧ ln_parent n = ln_parent n'
  ∧ ln_sourceData n = ln_sourceData n' ∧ ln_id n = ln_id n'.
Proof.
  destruct n, n'. unfold same_but_xy, set_x, set_y. simpl.
  intros Heq. injection Heq as -> -> -> -> -> -> -> ->. done.
Qed.

Lemma h_root_in_addrs (t : htree) : h_root t ∈ h_addrs t.
Proof. destruct t. left. Qed.

Lemma hier_preserved (h h' : store) (t : htree) :
  ∀ p,
    (∀ b n, b ∈ h_addrs t → h !! b = Some n →
            ∃ n', h' !! b = Some n' ∧ same_but_xy n n') →
    hier h p t → hier h' p t.
Proof.
  induction t as [a kids IH] using htree_ind. intros p Hsame Hh.
  inversion Hh as [p' a' kids' n Hn Hp Hkids Hsub]; subst.
  destruct (Hsame a n) as (n' & Hn' & Hfields); [left | done |].
  apply same_but_xy_fields in Hfields as (Hc & Hp & _).
  apply (hier_node h' _ a kids n' Hn'); [done | congruence |].
  rewrite Forall_forall in *. intros k Hk.
  apply (IH k Hk); [|by apply Hsub].
  intros b m Hb. apply Hsame. right. apply elem_of_flat_map. eauto.
Qed.

Lemma hier_agree (h h' : store) (t : htree) (p : option addr) :
  (∀ b, b ∈ h_addrs t → h' !! b = h !! b) → hier h p t → hier h' p t.
Proof.
  intros Hagree. apply hier_preserved. intros b n Hb Hn.
  exists n. rewrite Hagree by done. split; [done | apply same_but_xy_refl].
Qed.

Lemma hier_lookup (h : store) (t : htree) :
  ∀ p b, hier h p t → b ∈ h_addrs t → is_Some (h !! b).
Proof.
  induction t as [a kids IH] using htree_ind. intros p b Hh.
  inversion Hh as [p' a' kids' n Hn Hp Hkids Hsub]; subst. simpl.
  intros [->|Hb]%elem_of_cons; [eauto|].
  apply elem_of_flat_map in Hb as (k & Hk & Hb).
  rewrite Forall_forall in IH, Hsub. eapply (IH k Hk); eauto.
Qed.

(** The children of a node of a hierarchy are nodes of the hierarchy. *)
Lemma hier_children_closed (h : store) (t : htree) :
  ∀ p b n c,
    hier h p t → b ∈ h_addrs t → h !! b = Some n → c ∈ ln_children n →
    c ∈ h_addrs t.
Proof.
  induction t as [a kids IH] using htree_ind. intros p b m c Hh.
  inversion Hh as [p' a' kids' n Hn Hp Hkids Hsub]; subst. simpl.
  intros [->|Hb]%elem_of_cons Hm Hc; right; apply elem_of_flat_map.
  - rewrite Hn in Hm. injection Hm as <-. rewrite Hkids in Hc.
    apply list_elem_of_fmap in Hc as (k & -> & Hk).
    exists k. split; [done | apply h_root_in_addrs].
  - apply elem_of_flat_map in Hb as (k & Hk & Hb). exists k. split; [done|].
    rewrite Forall_forall in IH, Hsub. eapply (IH k Hk); eauto.
Qed.

Lemma centred_at_agree (h h' : store) (b : addr) :
  h' !! b = h !! b →
  (∀ n c, h !! b = Some n → c ∈ ln_children n → h' !! c = h !! c) →
  centred_at h b → centred_at h' b.
Proof.
  intros Hb Hkids Hcentred n Hn Hne. rewrite Hb in Hn.
  rewrite (y_mean_agree h h') by eauto. by apply Hcentred.
Qed.

Lemma centred_agree (h h' : store) (t : htree) (p : option addr) :
  hier h p t →
  (∀ b, b ∈ h_addrs t → h' !! b = h !! b) →
  (∀ b, b ∈ h_addrs t → centred_at h b) →
  ∀ b, b ∈ h_addrs t → centred_at h' b.
Proof.
  intros Hh Hagree Hcentred b Hb.
  apply (centred_at_agree h); [by apply Hagree | | by apply Hcentred].
  intros n c Hn Hc. apply Hagree. eapply hier_children_closed; eauto.
Qed.

(** The same two facts for the subtrees of a node. *)
Lemma forest_agree (h h' : store) (ts : list htree) (p : option addr) :
  (∀ b, b ∈ flat_map h_addrs ts → h' !! b = h !! b) →
  Forall (hier h p) ts →
  (∀ b, b ∈ flat_map h_addrs ts → centred_at h b) →
  Forall (hier h' p) ts ∧ ∀ b, b ∈ flat_map h_addrs ts → centred_at h' b.
Proof.
  intros Hagree Hh Hcentred. rewrite Forall_forall in Hh. split.
  - apply Forall_forall. intros t Ht. apply (hier_agree h); [|by apply Hh].
    intros b Hb. apply Hagree, elem_of_flat_map. eauto.
  - intros b Hb. apply elem_of_flat_map in Hb as (t & Ht & Hb).
    apply (centred_agree h h' t p); [by apply Hh | | | done];
      intros c Hc; [apply Hagree | apply Hcentred]; apply elem_of_flat_map; eauto.
Qed.

(** ** The layout: [buildHierarchy] *)

Lemma alter_at_length {A : Type} (f : A → A) (l1 l2 : list A) (x : A) :
  alter f (length l1) (l1 ++ x :: l2) = l1 ++ f x :: l2.
Proof.
  pose proof (alter_app_r f l1 (x :: l2) 0) as Halter.
  by rewrite Nat.add_0_r in Halter.
Qed.

Lemma lookup_at_length {A : Type} (l1 l2 : list A) (x : A) :
  (l1 ++ x :: l2) !! length l1 = Some x.
Proof. rewrite lookup_app_r by lia. by rewrite Nat.sub_diag. Qed.

Lemma built_forest_nil (p : option addr) (s : BuildState) : built_forest p s s [].
Proof.
  exists []. rewrite app_nil_r. simpl. split_and!; [done | done | constructor |].
  by intros b ?%elem_of_nil.
Qed.

Lemma built_forest_cons (p : option addr) (s s1 s2 : BuildState)
    (t : htree) (ts : list htree) :
  built_tree p s s1 t → built_forest p s1 s2 ts → built_forest p s s2 (t :: ts).
Proof.
  intros (e1 & Hs1 & Ha1 & Hh1 & Hc1) (e2 & Hs2 & Ha2 & Hh2 & Hc2).
  assert (∀ b, b ∈ h_addrs t → bs_store s2 !! b = bs_store s1 !! b) as Hagree.
  { intros b Hb. rewrite Hs2. apply lookup_app_l, lookup_lt_is_Some.
    by eapply hier_lookup. }
  exists (e1 ++ e2). split_and!.
  - by rewrite Hs2, Hs1, app_assoc.
  - simpl. rewrite Ha1, Ha2, Hs1, !length_app. by rewrite seq_app.
  - constructor; [by apply (hier_agree (bs_store s1)) | done].
  - intros b. simpl. intros [Hb|Hb]%elem_of_app; [|by apply Hc2].
    by apply (centred_agree (bs_store s1) _ t p).
Qed.

Section build.
Variable expandedNodes : gset string.
Variable getTextWidth : string → string → Q.

Let build := buildHierarchy expandedNodes getTextWidth.

(** What one call of [buildHierarchy] on [nd] gives. *)
Let build_ok (nd : MindMapNode) : Prop :=
  ∀ depth p s a s',
    build nd depth p s = (a, s') →
    a = length (bs_store s)
    ∧ ∃ t n, h_root t = a ∧ built_tree p s s' t
             ∧ bs_store s' !! a = Some n ∧ ln_sourceData n = nd.

Lemma map_state_build (cs : list MindMapNode) (depth : nat) (p : option addr) :
  Forall build_ok cs →
  ∀ s kids s',
    map_state (λ child, build child depth p) cs s = (kids, s') →
    ∃ ts, kids = h_root <$> ts ∧ built_forest p s s' ts.
Proof.
  induction 1 as [|c cs Hc _ IH]; intros s kids s'; simpl.
  - intros [= <- <-]. exists []. split; [done | apply built_forest_nil].
  - destruct (build c depth p s) as [a s1] eqn:Hbuild.
    destruct (map_state _ cs s1) as [ks s2] eqn:Hrest.
    intros [= <- <-].
    apply Hc in Hbuild as (_ & t & n & Hroot & Hbuilt & _).
    apply IH in Hrest as (ts & -> & Hforest).
    exists (t :: ts). split; [by rewrite <- Hroot|].
    by apply (built_forest_cons p s s1).
Qed.

(** The new node after its children are built and its fields assigned. *)
Lemma build_finish (p : option addr) (s s1 : BuildState) (n0 : LayoutNode)
    (ts : list htree) (y : Q) (yc : Q) :
  let a := length (bs_store s) in
  let kids := h_root <$> ts in
  let h := alter (set_children kids) a (bs_store s1) in
  ln_parent n0 = p →
  built_forest (Some a) (MkBuildState (bs_store s ++ [n0]) (bs_yCounter s)) s1 ts →
  (kids ≠ [] → y = y_mean h kids) →
  built_tree p s (MkBuildState (alter (set_y y) a h) yc) (HNode a ts)
  ∧ alter (set_y y) a h !! a = Some (set_y y (set_children kids n0)).
Proof.
  intros a kids h Hp (ext & Hs1 & Haddrs & Hh & Hc) Hy. simpl in Hs1, Haddrs.
  rewrite length_app in Haddrs. simpl in Haddrs.
  assert (∀ b, b ∈ flat_map h_addrs ts → b ≠ a) as Hfresh.
  { intros b Hb. rewrite Haddrs in Hb. apply elem_of_seq in Hb. lia. }
  assert (alter (set_y y) a h = bs_store s ++ set_y y (set_children kids n0) :: ext)
    as Hfinal.
  { unfold h, a. rewrite Hs1, <- app_assoc.
    change ([n0] ++ ext) with (n0 :: ext). by rewrite !alter_at_length. }
  assert (∀ b, b ≠ a → alter (set_y y) a h !! b = bs_store s1 !! b) as Hother.
  { intros b Hb. unfold h. by rewrite !list_lookup_alter_ne. }
  assert (alter (set_y y) a h !! a = Some (set_y y (set_children kids n0))) as Hnew.
  { rewrite Hfinal. apply lookup_at_length. }
  destruct (forest_agree (bs_store s1) (alter (set_y y) a h) ts (Some a))
    as [Hh' Hc']; [by intros b Hb; apply Hother, Hfresh | done | done |].
  split; [|done]. exists (set_y y (set_children kids n0) :: ext). simpl.
  split_and!; [done | | by econstructor | ].
  - rewrite Haddrs. f_equal. f_equal. unfold a. lia.
  - intros b [->|Hb]%elem_of_cons; [|by apply Hc'].
    intros n Hn Hne.
    assert (n = set_y y (set_children kids n0)) as ->
      by (apply (inj Some); rewrite <- Hn; exact Hnew).
    simpl in *.
    rewrite (y_mean_agree h (alter (set_y y) a h)); [by rewrite Hy|].
    intros c Hc0. apply list_lookup_alter_ne. symmetry. apply Hfresh.
    apply list_elem_of_fmap in Hc0 as (k & -> & Hk).
    apply elem_of_flat_map. exists k. split; [done | apply h_root_in_addrs].
Qed.
Lemma buildHierarchy_ok (nd : MindMapNode) : build_ok nd.
Proof.
  induction nd as [i tp cs IH] using MindMapNode_ind.
  intros depth p s a s'. unfold build. simpl.
  match goal with
  | |- context [MkBuildState (bs_store s ++ [?n]) _] => set (n0 := n)
  end.
  set (s0 := MkBuildState (bs_store s ++ [n0]) (bs_yCounter s)).
  destruct (if is_expanded expandedNodes i then _ else _) as [kids s1] eqn:Hkids.
  assert (∃ ts, kids = h_root <$> ts
                ∧ built_forest (Some (length (bs_store s))) s0 s1 ts)
    as (ts & -> & Hforest).
  { destruct (is_expanded expandedNodes i).
    - by apply (map_state_build cs (S depth) _ IH s0).
    - injection Hkids as <- <-. exists []. split; [done | apply built_forest_nil]. }
  destruct (0 <? length (h_root <$> ts)) eqn:Hlen; intros [= <- <-];
    (split; [done|]).
  - edestruct (build_finish p s s1 n0 ts) as [Hbuilt Hnew]; [done | done | | ].
    { intros _. reflexivity. }
    exists (HNode (length (bs_store s)) ts). eexists.
    split_and!; [done | exact Hbuilt | exact Hnew | done].
  - edestruct (build_finish p s s1 n0 ts (bs_yCounter s1)) as [Hbuilt Hnew];
      [done | done | | ].
    { intros Hne. apply Nat.ltb_ge in Hlen. destruct (h_root <$> ts); [done|].
      simpl in Hlen. lia. }
    exists (HNode (length (bs_store s)) ts). eexists.
    split_and!; [done | exact Hbuilt | exact Hnew | done].
Qed.
End build.

(** ** The layout: [positionNodes] *)

Lemma shifted_trans (A1 A2 : list addr) (off : Q) (h h1 h2 : store) :
  shifted A1 off h h1 → shifted A2 off h1 h2 → (∀ b, b ∈ A1 → b ∉ A2) →
  shifted (A1 ++ A2) off h h2.
Proof.
  intros H1 H2 Hdisj b n Hn.
  destruct (H1 b n Hn) as (n1 & Hn1 & Hs1 & Hin1 & Hout1).
  destruct (H2 b n1 Hn1) as (n2 & Hn2 & Hs2 & Hin2 & Hout2).
  exists n2. split_and!; [done | by eapply same_but_xy_trans | |].
  - intros [Hb|Hb]%elem_of_app.
    + rewrite Hout2 by auto. auto.
    + rewrite Hin2 by done. rewrite Hout1; [done|].
      intros Hb1. by apply (Hdisj b).
  - intros Hb. rewrite Hout2, Hout1; [done | |];
      intros ?; apply Hb, elem_of_app; auto.
Qed.

Lemma shifted_insert (h : store) (a : addr) (n : LayoutNode) (off x : Q) :
  h !! a = Some n →
  shifted [a] off h (<[a := set_y (ln_y n + off) (set_x x n)]> h).
Proof.
  intros Hn b m Hm. destruct (decide (b = a)) as [->|Hne].
  - rewrite Hn in Hm. injection Hm as <-.
    exists (set_y (ln_y n + off) (set_x x n)).
    rewrite list_lookup_insert_eq by (by eapply lookup_lt_Some).
    split_and!; [done | apply same_but_xy_moved | done |].
    intros Hb. exfalso. apply Hb. left.
  - exists m. rewrite list_lookup_insert_ne by done.
    split_and!; [done | apply same_but_xy_refl | | done].
    by intros ?%list_elem_of_singleton.
Qed.

Lemma shifted_is_Some (A : list addr) (off : Q) (h h' : store) (b : addr) :
  shifted A off h h' → is_Some (h !! b) → is_Some (h' !! b).
Proof. intros Hs [n Hn]. destruct (Hs b n Hn) as (n' & Hn' & _). eauto. Qed.

Lemma shifted_hier (A : list addr) (off : Q) (h h' : store)
    (p : option addr) (t : htree) :
  shifted A off h h' → hier h p t → hier h' p t.
Proof.
  intros Hs. apply hier_preserved. intros b n _ Hn.
  destruct (Hs b n Hn) as (n' & Hn' & Hsame & _). eauto.
Qed.

Lemma link_in_weaken (p : option addr) (A B : list addr) (l : LayoutLink) :
  (∀ b, b ∈ A → b ∈ B) → link_in p A l → link_in p B l.
Proof. intros Hsub [Ht [Hs|Hs]]; split; auto. Qed.

Lemma positioned_nil (p : addr) (off : Q) (st : LayoutState) :
  positioned (Some p) [] off st st.
Proof.
  split_and!; [by rewrite app_nil_r | exists []; by rewrite app_nil_r |].
  intros b n Hn. exists n. split_and!; [done | apply same_but_xy_refl | | done].
  by intros ?%elem_of_nil.
Qed.

Lemma positioned_trans (p : addr) (A1 A2 : list addr) (off : Q)
    (st st1 st2 : LayoutState) :
  positioned (Some p) A1 off st st1 → positioned (Some p) A2 off st1 st2 →
  (∀ b, b ∈ A1 → b ∉ A2) →
  positioned (Some p) (A1 ++ A2) off st st2.
Proof.
  intros (Hn1 & (L1 & Hl1 & Hlen1 & Hin1) & Hs1)
         (Hn2 & (L2 & Hl2 & Hlen2 & Hin2) & Hs2) Hdisj.
  split_and!; [by rewrite Hn2, Hn1, app_assoc | | by eapply shifted_trans].
  exists (L1 ++ L2). split_and!.
  - by rewrite Hl2, Hl1, app_assoc.
  - rewrite !length_app. lia.
  - apply Forall_app. split; eapply Forall_impl; eauto;
      intros l; apply link_in_weaken; intros b; rewrite elem_of_app; auto.
Qed.

(** A node is positioned, then its children below it. *)
Lemma positioned_node (p : option addr) (a : addr) (F : list addr) (off : Q)
    (st st1 st2 : LayoutState) :
  positioned p [a] off st st1 → positioned (Some a) F off st1 st2 → a ∉ F →
  positioned p (a :: F) off st st2.
Proof.
  intros (Hn1 & (L1 & Hl1 & Hlen1 & Hin1) & Hs1)
         (Hn2 & (L2 & Hl2 & Hlen2 & Hin2) & Hs2) Hfresh.
  split_and!.
  - rewrite Hn2, Hn1, <- app_assoc. done.
  - exists (L1 ++ L2). split_and!.
    + by rewrite Hl2, Hl1, app_assoc.
    + rewrite length_app. simpl in *. lia.
    + apply Forall_app. split.
      * eapply Forall_impl; [exact Hin1|]. intros l. apply link_in_weaken.
        intros b ->%list_elem_of_singleton. left.
      * eapply Forall_impl; [exact Hin2|]. intros l [Ht [Hs|Hs]]; split.
        -- by right.
        -- left. by right.
        -- by right.
        -- left. injection Hs as ->. left.
  - apply (shifted_trans [a] F off _ (st_store st1)); [done | done |].
    by intros b ->%list_elem_of_singleton.
Qed.

Section position.
Variable containerWidth : Q.

(** What one call of [positionNodes] on the root of [t] gives, with fuel
    for every node of [t]. *)
Let pos_ok (t : htree) : Prop :=
  ∀ fuel p off px pw st,
    hier (st_store st) p t →
    NoDup (h_addrs t) →
    (∀ q, p = Some q → is_Some (st_store st !! q)) →
    length (h_addrs t) ≤ fuel →
    ∃ st', positionNodes containerWidth fuel (h_root t) off px pw st = Some st'
           ∧ positioned p (h_addrs t) off st st'.

Lemma for_each_position (kids : list htree) :
  Forall pos_ok kids →
  ∀ fuel a off st,
    Forall (hier (st_store st) (Some a)) kids →
    NoDup (flat_map h_addrs kids) →
    is_Some (st_store st !! a) →
    Forall (λ t, length (h_addrs t) ≤ fuel) kids →
    ∃ st',
      for_each
        (λ child st',
           cur ← st_store st' !! a;
           positionNodes containerWidth fuel child off (ln_x cur) (ln_width cur) st')
        (h_root <$> kids) st = Some st'
      ∧ positioned (Some a) (flat_map h_addrs kids) off st st'.
Proof.
  induction 1 as [|t ts Ht _ IH]; intros fuel a off st Hh Hnodup Ha Hfuel.
  - exists st. split; [done | apply positioned_nil].
  - simpl in *. destruct Ha as [cur Hcur]. rewrite Hcur. simpl.
    apply Forall_cons in Hh as [Hh1 Hh2].
    apply Forall_cons in Hfuel as [Hfuel1 Hfuel2].
    apply NoDup_app in Hnodup as (Hnd1 & Hdisj & Hnd2).
    destruct (Ht fuel (Some a) off (ln_x cur) (ln_width cur) st)
      as (st1 & -> & Hpos1); [done | done | | done |].
    { intros q [= <-]. eauto. }
    destruct Hpos1 as (Hn1 & Hl1 & Hs1).
    destruct (IH fuel a off st1) as (st2 & Hrun2 & Hpos2); [ | done | | done |].
    { eapply Forall_impl; [exact Hh2|]. intros k. by eapply shifted_hier. }
    { eapply shifted_is_Some; eauto. }
    exists st2. split; [exact Hrun2|].
    by apply (positioned_trans a _ _ off st st1 st2).
Qed.

Lemma positionNodes_ok (t : htree) : pos_ok t.
Proof.
  induction t as [a kids IH] using htree_ind.
  intros fuel p off px pw st Hh Hnodup Hp Hfuel.
  inversion Hh as [p' a' kids' n Hn Hparent Hkids Hsub]; subst.
  simpl in Hnodup, Hfuel. apply NoDup_cons in Hnodup as [Hfresh Hnodup].
  destruct fuel as [|fuel]; [lia|]. simpl. rewrite Hn. simpl.
  match goal with
  | |- context [<[a := ?m]> (st_store st)] => set (n1 := m)
  end.
  pose proof (shifted_insert (st_store st) a n off (ln_x n1) Hn) as Hs1.
  change (set_y _ _) with n1 in Hs1.
  set (h1 := <[a := n1]> (st_store st)) in *.
  assert (h1 !! a = Some n1) as Hn1.
  { apply list_lookup_insert_eq. by eapply lookup_lt_Some. }
  assert (∀ links1,
            ∃ st',
              for_each
                (λ child st',
                   cur ← st_store st' !! a;
                   positionNodes containerWidth fuel child off
                     (ln_x cur) (ln_width cur) st')
                (h_root <$> kids) (MkLayoutState h1 (st_nodes st ++ [a]) links1)
              = Some st'
              ∧ positioned (Some a) (flat_map h_addrs kids) off
                  (MkLayoutState h1 (st_nodes st ++ [a]) links1) st')
    as Hchildren.
  { intros links1. apply (for_each_position kids IH); simpl.
    - eapply Forall_impl; [exact Hsub|]. intros k. by eapply shifted_hier.
    - done.
    - eauto.
    - apply Forall_forall. intros k Hk.
      assert (length (h_addrs k) ≤ length (flat_map h_addrs kids)); [|lia].
      clear -Hk. induction kids as [|k' kids IHk]; [by apply elem_of_nil in Hk|].
      simpl. rewrite length_app.
      apply elem_of_cons in Hk as [->|Hk]; [lia|]. specialize (IHk Hk). lia. }
  rewrite Hkids.
  destruct (ln_parent n) as [q|] eqn:Hq; simpl.
  - destruct (shifted_is_Some [a] off _ h1 q Hs1) as [pn Hpn]; [by apply Hp|].
    rewrite Hpn. simpl.
    edestruct Hchildren as (st' & Hrun & Hpos2).
    exists st'. split; [exact Hrun|].
    eapply (positioned_node _ a _ off st _ st'); [|exact Hpos2|done].
    split_and!; [done | | done]. eexists. split_and!; [done | done |].
    constructor; [|constructor]. split; simpl; [left | by right].
  - edestruct Hchildren as (st' & Hrun & Hpos2).
    exists st'. split; [exact Hrun|].
    eapply (positioned_node _ a _ off st _ st'); [|exact Hpos2|done].
    split_and!; [done | | done]. exists []. by rewrite app_nil_r.
Qed.
End position.

(** ** The layout: [calculateLayout] *)

Lemma shifted_y_of (A : list addr) (off : Q) (h h' : store) (b : addr) :
  shifted A off h h' → b ∈ A → is_Some (h !! b) →
  y_of h' b = (y_of h b + off)%Q.
Proof.
  intros Hs Hb [n Hn]. destruct (Hs b n Hn) as (n' & Hn' & _ & Hin & _).
  unfold y_of. rewrite Hn, Hn'. by apply Hin.
Qed.

Lemma shifted_centred (h h' : store) (t : htree) (p : option addr) (off : Q) :
  hier h p t →
  shifted (h_addrs t) off h h' →
  (∀ b, b ∈ h_addrs t → centred_at h b) →
  ∀ b, b ∈ h_addrs t → centred_at h' b.
Proof.
  intros Hh Hs Hcentred b Hb n' Hn' Hne.
  destruct (hier_lookup h t p b Hh Hb) as [n Hn].
  destruct (Hs b n Hn) as (n'' & Hn'' & Hsame & Hin & _).
  rewrite Hn' in Hn''. injection Hn'' as <-.
  apply same_but_xy_fields in Hsame as (Hkids & _).
  rewrite (Hin Hb), <- Hkids in *.
  rewrite (y_mean_shift h h' off (ln_children n)); [| done |].
  - rewrite (Hcentred b Hb n Hn Hne). reflexivity.
  - intros c Hc.
    assert (c ∈ h_addrs t) as Hct by (by eapply hier_children_closed).
    apply (shifted_y_of (h_addrs t)); [done | done | by eapply hier_lookup].
Qed.

Lemma children_y_is_Some (h : store) (n : LayoutNode) :
  (∀ c, c ∈ ln_children n → is_Some (h !! c)) → is_Some (children_y h n).
Proof.
  unfold children_y. induction (ln_children n) as [|c cs IH]; intros Hall.
  - by eexists.
  - destruct (Hall c) as [m Hm]; [left|].
    destruct IH as [ys Hys]; [intros c' Hc'; apply Hall; by right|].
    exists (ln_y m :: ys). apply mapM_Some. constructor.
    + by rewrite Hm.
    + by apply mapM_Some.
Qed.

Section layout.
Variable expandedNodes : gset string.
Variable getTextWidth : string → string → Q.
Variable containerWidth : Q.

(** [calculateLayout] returns, and what it returns is a positioned
    hierarchy: [nodes] lists its addresses, the root first. *)
Lemma calculateLayout_ok (rootNode : MindMapNode) :
  ∃ L t n0,
    calculateLayout expandedNodes getTextWidth containerWidth rootNode = Some L
    ∧ st_nodes L = h_addrs t
    ∧ h_root t = 0
    ∧ NoDup (h_addrs t)
    ∧ hier (st_store L) None t
    ∧ (∀ b, b ∈ h_addrs t → centred_at (st_store L) b)
    ∧ length (st_links L) + 1 = length (h_addrs t)
    ∧ Forall (link_in None (h_addrs t)) (st_links L)
    ∧ st_store L !! 0 = Some n0
    ∧ ln_sourceData n0 = rootNode
    ∧ ln_parent n0 = None
    ∧ (ln_y n0 == 0)%Q.
Proof.
  unfold calculateLayout.
  destruct (buildHierarchy _ _ rootNode 0 None _) as [a s] eqn:Hbuild.
  apply buildHierarchy_ok in Hbuild
    as (Ha & t & n & Hroot & (ext & Hs & Haddrs & Hh & Hc) & Hn & Hsrc).
  simpl in *. subst a.
  assert (NoDup (h_addrs t)) as Hnodup by (rewrite Haddrs; apply NoDup_seq).
  destruct (positionNodes_ok containerWidth t (length (bs_store s)) None
              (- y_of (bs_store s) 0)%Q 0%Q 0%Q (MkLayoutState (bs_store s) [] []))
    as (L & Hrun & Hnodes & (Lk & Hlinks & Hlen & Hin) & Hshift);
    [done | done | by intros q [=] | by rewrite Haddrs, length_seq, Hs | ].
  simpl in *. rewrite Hroot in Hrun.
  destruct (Hshift 0 n Hn) as (n0 & Hn0 & Hsame & Hy & _).
  apply same_but_xy_fields in Hsame as (_ & Hparent & Hsource & _).
  inversion Hh as [p' a' kids' m Hm Hmp Hkids Hsub]; subst.
  simpl in Hroot. subst a'. rewrite Hn in Hm. injection Hm as <-.
  exists L, (HNode 0 kids'), n0. rewrite Hrun, Hnodes.
  split_and!; try done.
  - by eapply shifted_hier.
  - by apply (shifted_centred (bs_store s) _ _ None (- y_of (bs_store s) 0)%Q).
  - congruence.
  - rewrite Hy by left. unfold y_of. rewrite Hn. ring.
Qed.

(** C1: over exact numbers, in the layout [calculateLayout] returns, every
    listed node is an object of the store, and one with at least one rendered
    child has for [y] the arithmetic mean of the final [y] of its children. *)
Theorem calculateLayout_centres_parents (rootNode : MindMapNode) :
  ∃ L,
    calculateLayout expandedNodes getTextWidth containerWidth rootNode = Some L
    ∧ ∀ a,
        a ∈ st_nodes L →
        ∃ n,
          st_store L !! a = Some n
          ∧ (ln_children n ≠ [] →
             ∃ ys, children_y (st_store L) n = Some ys ∧ (ln_y n == Qmean ys)%Q).
Proof.
  destruct (calculateLayout_ok rootNode)
    as (L & t & n0 & Hrun & Hnodes & _ & _ & Hh & Hcentred & _).
  exists L. split; [done|]. intros a Ha. rewrite Hnodes in Ha.
  destruct (hier_lookup (st_store L) t None a Hh Ha) as [n Hn].
  exists n. split; [done|]. intros Hne.
  destruct (children_y_is_Some (st_store L) n) as [ys Hys].
  { intros c Hc. eapply hier_lookup; [exact Hh|].
    by eapply hier_children_closed. }
  exists ys. split; [done|].
  rewrite (Hcentred a Ha n Hn Hne). by apply y_mean_children_y.
Qed.

(** C2: in the layout [calculateLayout] returns, the root node, the
    first of [nodes], has [y] equal to 0. *)
Theorem calculateLayout_root_y_zero (rootNode : MindMapNode) :
  ∃ L r n,
    calculateLayout expandedNodes getTextWidth containerWidth rootNode = Some L
    ∧ head (st_nodes L) = Some r
    ∧ st_store L !! r = Some n
    ∧ ln_sourceData n = rootNode
    ∧ ln_parent n = None
    ∧ (ln_y n == 0)%Q.
Proof.
  destruct (calculateLayout_ok rootNode)
    as (L & t & n0 & Hrun & Hnodes & Hroot & _ & _ & _ & _ & _ & Hn0 & Hsrc & Hp & Hy).
  exists L, 0, n0. rewrite Hnodes. destruct t as [a kids]. simpl in *. by subst a.
Qed.

(** C10: the layout [calculateLayout] returns is a tree over its nodes:
    there is one link less than there are nodes, and the source and the
    target of every link are in [nodes]. *)
Theorem calculateLayout_is_tree (rootNode : MindMapNode) :
  ∃ L,
    calculateLayout expandedNodes getTextWidth containerWidth rootNode = Some L
    ∧ 1 ≤ length (st_nodes L)
    ∧ length (st_links L) = length (st_nodes L) - 1
    ∧ Forall (λ l, ll_source l ∈ st_nodes L ∧ ll_target l ∈ st_nodes L) (st_links L).
Proof.
  destruct (calculateLayout_ok rootNode)
    as (L & t & n0 & Hrun & Hnodes & _ & _ & _ & _ & Hlen & Hin & _).
  exists L. rewrite Hnodes. split_and!; [done | lia | lia |].
  eapply Forall_impl; [exact Hin|]. intros l [Ht [Hs|Hs]]; done.
Qed.
End layout.

(** ** The end-to-end scenario *)

Example sample_tree_ids :
  all_ids (addIds sample_tree root_prefix)
  = [Some "root-A"; Some "root-A-0-B"; Some "root-A-1-C"; Some "root-A-1-C-0-D"].
Proof. reflexivity. Qed.

Example sample_tree_initial_state :
  setInitialExpandedState [sample_tree] = {[ "root-A" ]}.
Proof. vm_compute. reflexivity. Qed.

Lemma sample_layout_root_expanded (getTextWidth : string → string → Q)
    (containerWidth : Q) :
  (λ L, (node_names L, link_ends L))
    <$> calculateLayout {[ "root-A" ]} getTextWidth containerWidth
          (addIds sample_tree root_prefix)
  = Some ([Some "A"; Some "B"; Some "C"], [(0, 1); (0, 2)]).
Proof. vm_compute. reflexivity. Qed.

(** C5: for the tree A[B, C[D]] and the expansion set that holds only
    the identifier of the root, the layout has the three nodes A, B and C and
    the two links from A to B and from A to C. *)
Theorem calculateLayout_root_expanded (getTextWidth : string → string → Q)
    (containerWidth : Q) :
  ∃ L,
    calculateLayout {[ "root-A" ]} getTextWidth containerWidth
      (addIds sample_tree root_prefix) = Some L
    ∧ node_names L = [Some "A"; Some "B"; Some "C"]
    ∧ length (st_nodes L) = 3
    ∧ link_ends L = [(0, 1); (0, 2)]
    ∧ length (st_links L) = 2.
Proof.
  pose proof (sample_layout_root_expanded getTextWidth containerWidth) as Hview.
  destruct (calculateLayout _ _ _ _) as [L|]; [|discriminate Hview].
  injection Hview as Hnames Hlinks. exists L. split_and!; [done | done | | done |].
  - apply (f_equal length) in Hnames. unfold node_names in Hnames.
    by rewrite length_fmap in Hnames.
  - apply (f_equal length) in Hlinks. unfold link_ends in Hlinks.
    by rewrite length_fmap in Hlinks.
Qed.

(** C5 as the specification words it (one node, no link) fails. *)
Lemma calculateLayout_root_expanded_not_alone :
  ¬ ∃ L,
      calculateLayout {[ "root-A" ]} fallbackTextWidth 1000
        (addIds sample_tree root_prefix) = Some L
      ∧ length (st_nodes L) = 1
      ∧ length (st_links L) = 0.
Proof.
  intros (L & Hrun & Hnodes & _).
  pose proof (sample_layout_root_expanded fallbackTextWidth 1000) as Hview.
  rewrite Hrun in Hview. injection Hview as Hnames _.
  apply (f_equal length) in Hnames. unfold node_names in Hnames.
  rewrite length_fmap, Hnodes in Hnames. discriminate Hnames.
Qed.

(** With nothing expanded the layout is the root alone. *)
Example calculateLayout_nothing_expanded (getTextWidth : string → string → Q)
    (containerWidth : Q) :
  (λ L, (node_names L, link_ends L))
    <$> calculateLayout ∅ getTextWidth containerWidth (addIds sample_tree root_prefix)
  = Some ([Some "A"], []).
Proof. vm_compute. reflexivity. Qed.

Lemma calculateLayout_centres_parents_witness :
  ∃ L n,
    calculateLayout ({[ "root-A" ]} ∪ {[ "root-A-1-C" ]}) fallbackTextWidth 1000
      (addIds sample_tree root_prefix) = Some L
    ∧ 0 ∈ st_nodes L
    ∧ st_store L !! 0 = Some n
    ∧ ln_children n = [1; 2]
    ∧ ∃ ys, children_y (st_store L) n = Some ys ∧ (ln_y n == Qmean ys)%Q.
Proof.
  destruct (calculateLayout_centres_parents ({[ "root-A" ]} ∪ {[ "root-A-1-C" ]})
              fallbackTextWidth 1000 (addIds sample_tree root_prefix))
    as (L & Hrun & Hcentred).
  pose proof Hrun as Hvalue. vm_compute in Hvalue. injection Hvalue as Hvalue.
  assert (0 ∈ st_nodes L) as H0 by (rewrite <- Hvalue; left).
  destruct (Hcentred 0 H0) as (n & Hn & Hmean).
  assert (ln_children n = [1; 2]) as Hkids.
  { rewrite <- Hvalue in Hn. by injection Hn as <-. }
  exists L, n. split_and!; [done | done | done | done |].
  apply Hmean. by rewrite Hkids.
Defined.

(** The layout of R[B, C, D[E, F]] with R and D expanded, in doubles: the
    root ends at 0, and the [y] of its three children, which carry the
    rounding of 245/3, have neither 0 for their mean as the program would
    compute it nor 0 for the mean of the numbers they stand for. *)
Lemma thirds_layout_in_doubles :
  ∃ L n ys y qs,
    Double.calculateLayout ({[ "root-R" ]} ∪ {[ "root-R-2-D" ]})
      Double.fallbackTextWidth (Double.of_nat 1000)
      (addIds thirds_tree root_prefix) = Some L
    ∧ 0 ∈ Double.st_nodes L
    ∧ Double.st_store L !! 0 = Some n
    ∧ Double.ln_children n = [1; 2; 3]
    ∧ Double.children_y (Double.st_store L) n = Some ys
    ∧ PrimFloat.eqb (Double.ln_y n) (Double.mean ys) = false
    ∧ Double.value (Double.ln_y n) = Some y
    ∧ mapM Double.value ys = Some qs
    ∧ ¬ (y == Qmean qs)%Q.
Proof.
  eexists _, _, _, _, _.
  split; [vm_compute; reflexivity|].
  split; [left|].
  split; [reflexivity|].
  split; [reflexivity|].
  split; [vm_compute; reflexivity|].
  split; [vm_compute; reflexivity|].
  split; [vm_compute; reflexivity|].
  split; [vm_compute; reflexivity|].
  vm_compute. discriminate.
Qed.

(** C1 as the specification words it (plain equality) fails in the double
    arithmetic of the program: in the layout of R[B, C, D[E, F]] with R and D
    expanded the root is not at the mean of its children. *)
Lemma calculateLayout_centres_parents_fails_in_doubles :
  ¬ ∃ L,
      Double.calculateLayout ({[ "root-R" ]} ∪ {[ "root-R-2-D" ]})
        Double.fallbackTextWidth (Double.of_nat 1000)
        (addIds thirds_tree root_prefix) = Some L
      ∧ ∀ a,
          a ∈ Double.st_nodes L →
          ∃ n,
            Double.st_store L !! a = Some n
            ∧ (Double.ln_children n ≠ [] →
               ∃ ys, Double.children_y (Double.st_store L) n = Some ys
                     ∧ Double.is_mean (Double.ln_y n) ys).
Proof.
  intros (L' & Hrun' & Hall).
  destruct thirds_layout_in_doubles
    as (L & n & ys & y & qs & Hrun & H0 & Hn & Hkids & Hys & Hfl & Hy & Hqs & Hne).
  rewrite Hrun in Hrun'. injection Hrun' as <-.
  destruct (Hall 0 H0) as (n' & Hn' & Hmean).
  rewrite Hn in Hn'. injection Hn' as <-.
  destruct Hmean as (ys' & Hys' & Hm); [by rewrite Hkids|].
  rewrite Hys in Hys'. injection Hys' as <-.
  destruct Hm as [Heq | (q & qs' & Hq & Hqs' & Hqm)].
  - rewrite Hfl in Heq. discriminate Heq.
  - rewrite Hy in Hq. injection Hq as <-.
    rewrite Hqs in Hqs'. injection Hqs' as <-. exact (Hne Hqm).
Qed.

(** * Further properties *)

(** ** Panning *)

Local Open Scope Q_scope.

Lemma pointer_step_size (st : PageState) (op : PointerOp) :
  vb_w (viewBox (pointer_step st op)) = vb_w (viewBox st)
  ∧ vb_h (viewBox (pointer_step st op)) = vb_h (viewBox st).
Proof.
  destruct st as [[x y w h] drag start ref], op as [svg e|e| | |svg ts|ts|];
    unfold pointer_step, handleMouseMove, handleTouchStart, handleTouchMove;
    simpl; repeat case_match; done.
Qed.

(** X1: whatever the pointer does, the width and the height of the rectangle
    stay as they are: panning only moves the rectangle. *)
Theorem pointer_ops_keep_size (ops : list PointerOp) (st : PageState) :
  vb_w (viewBox (fold_left pointer_step ops st)) = vb_w (viewBox st)
  ∧ vb_h (viewBox (fold_left pointer_step ops st)) = vb_h (viewBox st).
Proof.
  revert st. induction ops as [|op ops IH]; intros st; simpl; [done|].
  destruct (IH (pointer_step st op)) as [-> ->]. apply pointer_step_size.
Qed.

(** X2: while no drag is under way (nothing pressed, or the press released),
    moving the pointer leaves the whole state as it is. *)
Theorem moves_without_press_do_nothing (moves : list PointerOp) (st : PageState) :
  isDragging st = false ∨ svgRectRef st = None →
  Forall is_move moves →
  fold_left pointer_step moves st = st.
Proof.
  intros Hidle Hmoves. induction Hmoves as [|op moves Hop _ IH]; simpl; [done|].
  assert (pointer_step st op = st) as ->; [|exact IH].
  destruct op as [svg e|e| | |svg ts|ts|]; simpl in Hop; try done; simpl.
  - unfold handleMouseMove. destruct Hidle as [-> | ->]; [done|].
    by destruct (isDragging st).
  - unfold handleTouchMove. destruct Hidle as [-> | ->]; [done|].
    by destruct (isDragging st).
Qed.

Lemma moves_without_press_do_nothing_witness :
  let st := handleMouseUp (MkPageState initialViewBox true (3, 4) (Some (MkDOMRect 0 0 800 600))) in
  fold_left pointer_step [MouseMove (MkMouseEvent 10 20); TouchMove [MkTouch 5 6]] st = st.
Proof.
  apply (moves_without_press_do_nothing
           [MouseMove (MkMouseEvent 10 20); TouchMove [MkTouch 5 6]]
           (handleMouseUp
              (MkPageState initialViewBox true (3, 4) (Some (MkDOMRect 0 0 800 600))))).
  - left. reflexivity.
  - repeat constructor.
Defined.

(** X5: a touch with one contact pans as the mouse does, and a touch with any
    other number of contacts neither starts nor continues a drag. *)
Theorem touch_pans_with_one_contact (svg : option DOMRect) (touches : list Touch)
    (st : PageState) :
  match touches with
  | [t] =>
      let e := MkMouseEvent (touch_clientX t) (touch_clientY t) in
      handleTouchStart svg touches st = handleMouseDown svg e st
      ∧ handleTouchMove touches st = handleMouseMove e st
  | _ => handleTouchStart svg touches st = st ∧ handleTouchMove touches st = st
  end.
Proof.
  destruct touches as [|t [|t' ts]]; (split; [done|]);
    unfold handleTouchMove, handleMouseMove;
    by destruct (isDragging st), (svgRectRef st).
Qed.

Local Close Scope Q_scope.

(** ** Zooming *)

Local Open Scope Q_scope.

Lemma clampWidth_cases (w : Q) :
  (w < MIN_ZOOM_WIDTH ∧ clampWidth w = MIN_ZOOM_WIDTH)
  ∨ (MAX_ZOOM_WIDTH < w ∧ clampWidth w = MAX_ZOOM_WIDTH)
  ∨ (MIN_ZOOM_WIDTH <= w <= MAX_ZOOM_WIDTH ∧ clampWidth w = w).
Proof.
  unfold clampWidth.
  destruct (Qltb w MIN_ZOOM_WIDTH) eqn:Hlo.
  - left. apply Qltb_true in Hlo. split; [done|]. reflexivity.
  - apply Qltb_false in Hlo. destruct (Qltb MAX_ZOOM_WIDTH w) eqn:Hhi.
    + right. left. by apply Qltb_true in Hhi.
    + right. right. by apply Qltb_false in Hhi.
Qed.

Lemma zoom_step_width_eq (svgRect : DOMRect) (st : PageState) (op : ZoomOp) :
  vb_w (viewBox (zoom_step svgRect st op))
  = clampWidth (vb_w (viewBox st) * zoom_scale op).
Proof. by destruct op as [[|]|e], st as [[vx vy vw vh] drag start ref]. Qed.

Lemma zoom_step_height_eq (svgRect : DOMRect) (st : PageState) (op : ZoomOp) :
  vb_h (viewBox (zoom_step svgRect st op))
  = vb_h (viewBox st) * (vb_w (viewBox (zoom_step svgRect st op)) / vb_w (viewBox st)).
Proof. by destruct op as [[|]|e], st as [[vx vy vw vh] drag start ref]. Qed.

Lemma zoom_scale_in (op : ZoomOp) :
  zooms_in op → zoom_scale op == 4 # 5 ∨ zoom_scale op == 10 # 11.
Proof.
  destruct op as [d|e]; simpl.
  - intros ->. by left.
  - intros Hneg. right. destruct (Qltb 0 (we_deltaY e)) eqn:Hlt; [|done].
    by apply Qltb_true in Hlt.
Qed.

Lemma zoom_scale_out (op : ZoomOp) :
  zooms_out op → zoom_scale op == 5 # 4 ∨ zoom_scale op == 11 # 10.
Proof.
  destruct op as [d|e]; simpl.
  - intros ->. by left.
  - intros Hpos. right. apply Qltb_true in Hpos. by rewrite Hpos.
Qed.

(** At a bound the clamp gives back the width the rectangle has. *)
Lemma zoom_at_bound_width (svgRect : DOMRect) (op : ZoomOp) (st : PageState) :
  (zooms_in op ∧ vb_w (viewBox st) == MIN_ZOOM_WIDTH)
  ∨ (zooms_out op ∧ vb_w (viewBox st) == MAX_ZOOM_WIDTH) →
  vb_w (viewBox (zoom_step svgRect st op)) == vb_w (viewBox st).
Proof.
  intros Hbound. rewrite zoom_step_width_eq.
  unfold MIN_ZOOM_WIDTH, MAX_ZOOM_WIDTH in *.
  destruct Hbound as [[Hin Hw]|[Hout Hw]].
  - destruct (clampWidth_cases (vb_w (viewBox st) * zoom_scale op))
      as [[_ ->]|[[Hhi _]|[[Hlo _] _]]]; unfold MIN_ZOOM_WIDTH, MAX_ZOOM_WIDTH in *;
      [by rewrite Hw | exfalso | exfalso];
      destruct (zoom_scale_in op Hin) as [Hs|Hs]; rewrite Hs, Hw in *; lra.
  - destruct (clampWidth_cases (vb_w (viewBox st) * zoom_scale op))
      as [[Hlo _]|[[_ ->]|[[_ Hhi] _]]]; unfold MIN_ZOOM_WIDTH, MAX_ZOOM_WIDTH in *;
      [exfalso | by rewrite Hw | exfalso];
      destruct (zoom_scale_out op Hout) as [Hs|Hs]; rewrite Hs, Hw in *; lra.
Qed.

(** X8: zooming in at the least width, or out at the greatest, leaves the
    width and the height as they are, and with a button the whole rectangle. *)
Theorem zoom_at_bound_keeps_size (svgRect : DOMRect) (op : ZoomOp) (st : PageState) :
  (zooms_in op ∧ vb_w (viewBox st) == MIN_ZOOM_WIDTH)
  ∨ (zooms_out op ∧ vb_w (viewBox st) == MAX_ZOOM_WIDTH) →
  let vb := viewBox st in
  let vb' := viewBox (zoom_step svgRect st op) in
  vb_w vb' == vb_w vb
  ∧ vb_h vb' == vb_h vb
  ∧ match op with
    | ButtonZoom _ => vb_x vb' == vb_x vb ∧ vb_y vb' == vb_y vb
    | WheelZoom _ => True
    end.
Proof.
  intros Hbound. cbv zeta.
  pose proof (zoom_at_bound_width svgRect op st Hbound) as Hw.
  assert (¬ vb_w (viewBox st) == 0) as Hvw.
  { unfold MIN_ZOOM_WIDTH, MAX_ZOOM_WIDTH in Hbound.
    intros Hzero. destruct Hbound as [[_ Hb]|[_ Hb]]; rewrite Hzero in Hb; lra. }
  assert (vb_h (viewBox (zoom_step svgRect st op)) == vb_h (viewBox st)) as Hh.
  { rewrite zoom_step_height_eq, Hw. by field. }
  split_and!; [done | done |].
  destruct op as [d|e]; [|done].
  destruct st as [[vx vy vw vh] drag start ref]. simpl in *.
  split; [rewrite Hw | rewrite Hh]; field.
Qed.

Lemma zoom_at_bound_keeps_size_witness :
  let st := MkPageState (MkViewBox 5 7 200 120) false (0, 0) None in
  let vb' := viewBox (zoom_step (MkDOMRect 0 0 500 300) st (ButtonZoom dir_in)) in
  vb_w vb' == 200 ∧ vb_h vb' == 120 ∧ vb_x vb' == 5 ∧ vb_y vb' == 7.
Proof.
  apply (zoom_at_bound_keeps_size (MkDOMRect 0 0 500 300) (ButtonZoom dir_in)
           (MkPageState (MkViewBox 5 7 200 120) false (0, 0) None)).
  left. split; reflexivity.
Defined.

Local Close Scope Q_scope.

(** ** The second mind map *)

Local Open Scope Q_scope.

Lemma clamp_max_min (w : Q) :
  Qmax MIN_ZOOM_WIDTH (Qmin MAX_ZOOM_WIDTH w) == clampWidth w.
Proof.
  destruct (Q.min_spec MAX_ZOOM_WIDTH w) as [[Hmin ->]|[Hmin ->]];
    destruct (clampWidth_cases w) as [[Hc ->]|[[Hc ->]|[Hc ->]]];
    unfold MIN_ZOOM_WIDTH, MAX_ZOOM_WIDTH in *;
    match goal with
    | |- Qmax ?a ?b == _ =>
        destruct (Q.max_spec a b) as [[Hmax ->]|[Hmax ->]]
    end; lra.
Qed.

(** X10: the two mind maps zoom alike: the clamp written with [Math.max] and
    [Math.min] gives the rectangle that the two tests give. *)
Theorem document_mind_map_zooms_alike (svg : option DOMRect) (st : PageState) :
  (∀ e, ViewBox_eq (viewBox (MindMapComponent.handleWheel svg e st))
                   (viewBox (handleWheel svg e st)))
  ∧ (∀ direction,
       ViewBox_eq (viewBox (MindMapComponent.handleButtonZoom svg direction st))
                  (viewBox (handleButtonZoom svg direction st))).
Proof.
  destruct st as [[vx vy vw vh] drag start ref], svg as [svgRect|];
    split; intros x; unfold ViewBox_eq; simpl; try done;
    match goal with
    | |- context [clampWidth ?w] => pose proof (clamp_max_min w) as Hw
    end;
    split_and!; rewrite ?Hw; reflexivity.
Qed.

Local Close Scope Q_scope.

(** ** Identifiers and the expansion set, further *)

Lemma imap_from_ext {A B : Type} (f g : nat → A → B) (k : nat) (l : list A) :
  (∀ i x, x ∈ l → f i x = g i x) → imap_from f k l = imap_from g k l.
Proof.
  revert k. induction l as [|x l IH]; intros k Hfg; simpl; [done|].
  rewrite (Hfg k x) by left. f_equal. apply IH. intros i y Hy. apply Hfg. by right.
Qed.

Lemma imap_from_imap_from {A B C : Type} (f : nat → A → B) (g : nat → B → C)
    (k : nat) (l : list A) :
  imap_from g k (imap_from f k l) = imap_from (λ i x, g i (f i x)) k l.
Proof. revert k. induction l as [|x l IH]; intros k; simpl; [done|]. by rewrite IH. Qed.

Lemma imap_from_map {A B C : Type} (f : nat → B → C) (g : A → B) (k : nat) (l : list A) :
  imap_from f k (map g l) = imap_from (λ i x, f i (g x)) k l.
Proof. revert k. induction l as [|x l IH]; intros k; simpl; [done|]. by rewrite IH. Qed.

Lemma map_imap_from {A B C : Type} (g : B → C) (f : nat → A → B) (k : nat) (l : list A) :
  map g (imap_from f k l) = imap_from (λ i x, g (f i x)) k l.
Proof. revert k. induction l as [|x l IH]; intros k; simpl; [done|]. by rewrite IH. Qed.

Lemma imap_from_const {A B : Type} (g : A → B) (k : nat) (l : list A) :
  imap_from (λ _ x, g x) k l = map g l.
Proof. revert k. induction l as [|x l IH]; intros k; simpl; [done|]. by rewrite IH. Qed.

(** X12: [addIds] derives the identifiers from the prefix, the labels and the
    positions alone: identifiers already on the tree make no difference, so
    assigning them again to the outcome changes nothing. *)
Theorem addIds_again (t : MindMapNode) (prefix : string) :
  addIds (strip_ids t) prefix = addIds t prefix
  ∧ addIds (addIds t prefix) prefix = addIds t prefix.
Proof.
  revert prefix. induction t as [i tp cs IH] using MindMapNode_ind. intros prefix.
  rewrite Forall_forall in IH. simpl. split; f_equal.
  - rewrite imap_from_map. apply imap_from_ext. intros k c Hc. by apply IH.
  - rewrite imap_from_imap_from. apply imap_from_ext. intros k c Hc. by apply IH.
Qed.

(** X13: [addIds] writes identifiers and nothing else: the labels and the order
    of the children are those of the tree it was given. *)
Theorem addIds_keeps_tree (t : MindMapNode) (prefix : string) :
  strip_ids (addIds t prefix) = strip_ids t.
Proof.
  revert prefix. induction t as [i tp cs IH] using MindMapNode_ind. intros prefix.
  rewrite Forall_forall in IH. simpl. f_equal.
  rewrite map_imap_from, <- (imap_from_const strip_ids 0 cs).
  apply imap_from_ext. intros k c Hc. by apply IH.
Qed.

Lemma id_text_app (s t : string) : id_text s → id_text t → id_text (s +:+ t).
Proof.
  induction s as [|c s IH]; [done|]. rewrite string_app_cons. simpl.
  intros [Hc Hs] Ht. auto.
Qed.

Lemma id_text_sanitize (s : string) : id_text (sanitize s).
Proof.
  induction s as [|c s IH]; simpl; [done|]. split; [|done].
  destruct (is_alnum c) eqn:Hc; auto.
Qed.

Lemma id_text_index_str (i : nat) : id_text (index_str i).
Proof.
  unfold index_str. generalize (Nat.to_uint i). intros d.
  induction d; simpl; auto.
Qed.

(** X14: every node of an identified tree has an identifier, and with a prefix
    of ASCII letters, digits and dashes (as the default is) the identifier is
    of such characters only. *)
Theorem addIds_id_characters (t : MindMapNode) (prefix : string) (n : MindMapNode) :
  id_text prefix →
  n ∈ subnodes (addIds t prefix) →
  ∃ s, mm_id n = Some s ∧ id_text s.
Proof.
  revert prefix n. induction t as [i tp cs IH] using MindMapNode_ind.
  intros prefix n Hprefix. rewrite subnodes_unfold.
  assert (id_text (prefix +:+ "-" +:+ sanitize tp)) as Hid.
  { apply id_text_app; [done|]. apply (id_text_app "-"); [|apply id_text_sanitize].
    simpl. auto. }
  intros [->|Hin]%elem_of_cons; [by eexists|].
  rewrite addIds_unfold in Hin. simpl in Hin.
  apply elem_of_flat_map in Hin as (c' & Hc' & Hn).
  apply list_elem_of_lookup in Hc' as [j Hj]. rewrite imap_from_lookup in Hj.
  destruct (cs !! j) as [c|] eqn:Hc; [|done]. simpl in Hj. injection Hj as <-.
  rewrite Forall_lookup in IH. eapply (IH j c Hc); [|exact Hn].
  apply id_text_app; [done|]. apply (id_text_app "-"); [|apply id_text_index_str].
  simpl. auto.
Qed.

Lemma addIds_id_characters_witness :
  ∃ s, mm_id (MkMindMapNode (Some "root-A-b--0-C-") "C?" []) = Some s ∧ id_text s.
Proof.
  apply (addIds_id_characters
           (MkMindMapNode None "A b!" [MkMindMapNode None "C?" []]) root_prefix).
  - simpl. auto 10.
  - vm_compute. right. left.
Defined.

Lemma toggleNode_elem_of (nodeId x : string) (prev : gset string) :
  x ∈ toggleNode nodeId prev ↔ (x ≠ nodeId ∧ x ∈ prev) ∨ (x = nodeId ∧ x ∉ prev).
Proof.
  unfold toggleNode. case_bool_decide as Hin.
  - rewrite elem_of_difference, elem_of_singleton.
    split; [intros [Hx Hne]; by left | intros [[Hne Hx]|[-> Hx]]; done].
  - rewrite elem_of_union, elem_of_singleton.
    split.
    + intros [Hx| ->]; [left; split; [by intros ->|done] | by right].
    + intros [[Hne Hx]|[-> Hx]]; [by left | by right].
Qed.

(** X15: toggling two nodes gives the same expansion set in either order. *)
Theorem toggleNode_commutes (a b : string) (prev : gset string) :
  toggleNode a (toggleNode b prev) = toggleNode b (toggleNode a prev).
Proof.
  apply set_eq. intros x. rewrite !toggleNode_elem_of.
  destruct (decide (x = a)), (decide (x = b)), (decide (x ∈ prev)); subst;
    split; intros H; decompose [and or] H; subst; tauto.
Qed.

(** ** The multiple-choice page and the quiz page *)

Lemma MCQ_countCorrect_acc (answers : gmap nat string) (mcqs : list MCQPage.MCQ) :
  ∀ index c,
    MCQPage.countCorrect answers index mcqs c
    = c + MCQPage.countCorrect answers index mcqs 0.
Proof.
  induction mcqs as [|mcq mcqs IH]; intros index c; simpl; [lia|].
  case_bool_decide; [|apply IH].
  rewrite (IH _ (S c)), (IH _ 1). lia.
Qed.

Lemma MCQ_countCorrect_bound (answers : gmap nat string) (mcqs : list MCQPage.MCQ) :
  ∀ index,
    MCQPage.countCorrect answers index mcqs 0 ≤ length mcqs
    ∧ (MCQPage.countCorrect answers index mcqs 0 = length mcqs
       ↔ ∀ j mcq, mcqs !! j = Some mcq →
                  answers !! (index + j) = Some (MCQPage.correctAnswer mcq)).
Proof.
  induction mcqs as [|mcq mcqs IH]; intros index; simpl.
  - split; [lia|]. split; [by intros _ j mcq ?|done].
  - rewrite MCQ_countCorrect_acc. destruct (IH (S index)) as [Hle Hiff].
    assert ((∀ j m, mcqs !! j = Some m →
                    answers !! (S index + j) = Some (MCQPage.correctAnswer m))
            ↔ ∀ j m, mcqs !! j = Some m →
                     answers !! (index + S j) = Some (MCQPage.correctAnswer m)) as Hshift.
    { split; intros Hall j m Hm; specialize (Hall j m Hm);
        by rewrite Nat.add_succ_r in *. }
    rewrite Hshift in Hiff. clear Hshift.
    case_bool_decide as Hfirst.
    + split; [lia|]. split.
      * intros Heq [|j] m Hm; simpl in Hm.
        -- injection Hm as <-. by rewrite Nat.add_0_r.
        -- apply Hiff; [lia|done].
      * intros Hall. f_equal. apply Hiff. intros j m Hm. by apply (Hall (S j)).
    + split; [lia|]. split; [lia|].
      intros Hall. exfalso. apply Hfirst.
      rewrite <- (Nat.add_0_r index). by apply (Hall 0).
Qed.

(** X16: the score of a submitted multiple-choice set is at most the number of
    questions, and it is that number exactly when every question has its
    correct answer chosen. *)
Theorem mcq_score_bounds (mcqs : list MCQPage.MCQ) (st : MCQPage.State) :
  let st' := MCQPage.handleSubmit (Some mcqs) st in
  MCQPage.isSubmitted st' = true
  ∧ MCQPage.score st' ≤ length mcqs
  ∧ (MCQPage.score st' = length mcqs
     ↔ ∀ index mcq, mcqs !! index = Some mcq →
         MCQPage.userAnswers st !! index = Some (MCQPage.correctAnswer mcq)).
Proof.
  simpl. split; [done|]. apply (MCQ_countCorrect_bound (MCQPage.userAnswers st) mcqs 0).
Qed.

(** X17: with answers given to shown questions only, the submit button is
    enabled exactly when every question has an answer. *)
Theorem mcq_submit_enabled_when_all_answered (mcqs : list MCQPage.MCQ)
    (st : MCQPage.State) :
  (∀ index, is_Some (MCQPage.userAnswers st !! index) → index < length mcqs) →
  MCQPage.submitDisabled mcqs st = false
  ↔ ∀ index, index < length mcqs → is_Some (MCQPage.userAnswers st !! index).
Proof.
  intros Hshown. unfold MCQPage.submitDisabled.
  rewrite negb_false_iff, Nat.eqb_eq.
  set (answers := MCQPage.userAnswers st) in *.
  assert (dom answers ⊆ (set_seq 0 (length mcqs) : gset nat)) as Hsub.
  { intros i Hi. apply elem_of_dom in Hi. apply elem_of_set_seq.
    split; [lia|]. by apply Hshown. }
  assert (size (set_seq 0 (length mcqs) : gset nat) = length mcqs) as Hsize
    by apply size_set_seq.
  rewrite <- size_dom. split.
  - intros Hfull index Hindex. apply elem_of_dom.
    assert (size (set_seq 0 (length mcqs) : gset nat) ≤ size (dom answers)) as Hle
      by (rewrite Hsize, Hfull; done).
    rewrite (set_subseteq_size_eq _ _ Hsub Hle). apply elem_of_set_seq. lia.
  - intros Hall. rewrite <- Hsize. f_equal. apply leibniz_equiv.
    apply (anti_symm (⊆)); [done|]. intros i Hi. apply elem_of_set_seq in Hi.
    apply elem_of_dom, Hall. lia.
Qed.

Lemma mcq_submit_enabled_when_all_answered_witness :
  let mcqs := [MCQPage.MkMCQ "1+1?" ["1"; "2"] "2"; MCQPage.MkMCQ "2+2?" ["4"; "5"] "4"] in
  let st := MCQPage.handleAnswerChange 1 "5"
              (MCQPage.handleAnswerChange 0 "2" MCQPage.initialState) in
  MCQPage.submitDisabled mcqs st = false
  ↔ ∀ index, index < 2 → is_Some (MCQPage.userAnswers st !! index).
Proof.
  apply (mcq_submit_enabled_when_all_answered
           [MCQPage.MkMCQ "1+1?" ["1"; "2"] "2"; MCQPage.MkMCQ "2+2?" ["4"; "5"] "4"]
           (MCQPage.handleAnswerChange 1 "5"
              (MCQPage.handleAnswerChange 0 "2" MCQPage.initialState))).
  intros index. simpl. intros [a Ha].
  destruct (decide (index = 1)) as [->|]; [lia|].
  rewrite lookup_insert_ne in Ha by done.
  destruct (decide (index = 0)) as [->|]; [lia|].
  rewrite lookup_insert_ne in Ha by done. by rewrite lookup_empty in Ha.
Defined.

Lemma Quiz_countCorrect_acc (answers : gmap nat QuizPage.Answer)
    (questions : list QuizPage.AnyQuizQuestion) :
  ∀ index c,
    QuizPage.countCorrect answers index questions c
    = c + QuizPage.countCorrect answers index questions 0.
Proof.
  induction questions as [|q qs IH]; intros index c; simpl; [lia|].
  destruct (QuizPage.isCorrect answers index q); [|apply IH].
  rewrite (IH _ (S c)), (IH _ 1). lia.
Qed.

Lemma Quiz_isCorrect_graded (answers : gmap nat QuizPage.Answer) (index : nat)
    (q : QuizPage.AnyQuizQuestion) :
  QuizPage.isCorrect answers index q = true → QuizPage.isAutoGraded q = true.
Proof. by destruct q. Qed.

Lemma Quiz_countCorrect_bound (answers : gmap nat QuizPage.Answer)
    (questions : list QuizPage.AnyQuizQuestion) :
  ∀ index,
    QuizPage.countCorrect answers index questions 0
      ≤ length (QuizPage.autoGradedQuestions questions)
    ∧ (QuizPage.countCorrect answers index questions 0
         = length (QuizPage.autoGradedQuestions questions)
       ↔ ∀ j q, questions !! j = Some q → QuizPage.isAutoGraded q = true →
                QuizPage.isCorrect answers (index + j) q = true).
Proof.
  induction questions as [|q qs IH]; intros index; simpl.
  - split; [lia|]. split; [by intros _ j q ?|done].
  - rewrite Quiz_countCorrect_acc. destruct (IH (S index)) as [Hle Hiff].
    fold (QuizPage.autoGradedQuestions qs).
    assert ((∀ j m, qs !! j = Some m → QuizPage.isAutoGraded m = true →
                    QuizPage.isCorrect answers (S index + j) m = true)
            ↔ ∀ j m, qs !! j = Some m → QuizPage.isAutoGraded m = true →
                     QuizPage.isCorrect answers (index + S j) m = true) as Hshift.
    { split; intros Hall j m Hm Hg; specialize (Hall j m Hm Hg);
        by rewrite Nat.add_succ_r in *. }
    rewrite Hshift in Hiff. clear Hshift.
    destruct (QuizPage.isCorrect answers index q) eqn:Hfirst.
    + rewrite (Quiz_isCorrect_graded _ _ _ Hfirst). simpl.
      split; [lia|]. split.
      * intros Heq [|j] m Hm Hg; simpl in Hm.
        -- injection Hm as <-. by rewrite Nat.add_0_r.
        -- apply Hiff; [lia|done|done].
      * intros Hall. f_equal. apply Hiff. intros j m Hm Hg. by apply (Hall (S j)).
    + destruct (QuizPage.isAutoGraded q) eqn:Hgraded; simpl.
      * split; [lia|]. split; [lia|].
        intros Hall. specialize (Hall 0 q eq_refl Hgraded).
        rewrite Nat.add_0_r in Hall. congruence.
      * split; [lia|]. rewrite Hiff. split.
        -- intros Hall [|j] m Hm Hg; simpl in Hm.
           ++ injection Hm as <-. congruence.
           ++ by apply Hall.
        -- intros Hall j m Hm Hg. by apply (Hall (S j)).
Qed.

(** X18: the score of a submitted quiz is at most the number of questions that
    are graded (all but the short answers), whatever was typed into a short
    answer, and it is that number exactly when every graded question has its
    correct answer. *)
Theorem quiz_score_bounds (questions : list QuizPage.AnyQuizQuestion)
    (st : QuizPage.State) :
  let st' := QuizPage.handleSubmit (Some questions) st in
  QuizPage.score st' ≤ length (QuizPage.autoGradedQuestions questions)
  ∧ (QuizPage.score st' = length (QuizPage.autoGradedQuestions questions)
     ↔ ∀ index q, questions !! index = Some q → QuizPage.isAutoGraded q = true →
         QuizPage.isCorrect (QuizPage.userAnswers st) index q = true).
Proof.
  simpl. apply (Quiz_countCorrect_bound (QuizPage.userAnswers st) questions 0).
Qed.

(** ** The layout: what [buildHierarchy] appends *)

Lemma slots_app (y : Q) (k1 k2 : nat) :
  slots y (k1 + k2) = slots y k1 ++ slots (Nat.iter k1 next_slot y) k2.
Proof.
  revert y. induction k1 as [|k1 IH]; intros y; [done|].
  rewrite Nat.iter_succ_r.
  change (y :: slots (next_slot y) (k1 + k2)
          = y :: (slots (next_slot y) k1
                  ++ slots (Nat.iter k1 next_slot (next_slot y)) k2)).
  by rewrite IH.
Qed.

Lemma iter_next_slot_add (y : Q) (k1 k2 : nat) :
  Nat.iter (k1 + k2) next_slot y = Nat.iter k2 next_slot (Nat.iter k1 next_slot y).
Proof. by rewrite Nat.add_comm, Nat.iter_add. Qed.

Lemma leaf_ys_app (l1 l2 : list LayoutNode) :
  leaf_ys (l1 ++ l2) = leaf_ys l1 ++ leaf_ys l2.
Proof. unfold leaf_ys. by rewrite List.filter_app, fmap_app. Qed.

Lemma length_slots (y : Q) (k : nat) : length (slots y k) = k.
Proof. revert y. induction k as [|k IH]; intros y; simpl; [done|]. by rewrite IH. Qed.

Lemma rows_built_nil (E : gset string) (g : string → string → Q) (s : BuildState) :
  rows_built E g [] s s.
Proof. exists []. rewrite app_nil_r. split_and!; by try constructor. Qed.

Lemma rows_built_app (E : gset string) (g : string → string → Q)
    (rows1 rows2 : list (nat * MindMapNode)) (s s1 s2 : BuildState) :
  rows_built E g rows1 s s1 → rows_built E g rows2 s1 s2 →
  rows_built E g (rows1 ++ rows2) s s2.
Proof.
  intros (e1 & Hs1 & Hrows1 & Hkids1 & Hleaf1 & Hyc1)
         (e2 & Hs2 & Hrows2 & Hkids2 & Hleaf2 & Hyc2).
  exists (e1 ++ e2). split_and!.
  - by rewrite Hs2, Hs1, app_assoc.
  - by apply Forall2_app.
  - by apply Forall_app.
  - rewrite leaf_ys_app, length_app, slots_app. rewrite <- Hleaf1, <- Hyc1. by f_equal.
  - rewrite leaf_ys_app, length_app, iter_next_slot_add. by rewrite <- Hyc1.
Qed.

Lemma map_state_length {A B S : Type} (f : A → S → B * S) (l : list A) (s : S) :
  length (map_state f l s).1 = length l.
Proof.
  revert s. induction l as [|x l IH]; intros s; simpl; [done|].
  destruct (f x s) as [y s1]. specialize (IH s1).
  destruct (map_state f l s1) as [ys s2]. simpl in *. by rewrite IH.
Qed.

Section build_rows.
Variable expandedNodes : gset string.
Variable getTextWidth : string → string → Q.

Let build := buildHierarchy expandedNodes getTextWidth.

Let rows_ok (nd : MindMapNode) : Prop :=
  ∀ depth p s a s',
    build nd depth p s = (a, s') →
    rows_built expandedNodes getTextWidth (visible_rows expandedNodes depth nd) s s'.

Lemma map_state_rows (cs : list MindMapNode) (depth : nat) (p : option addr) :
  Forall rows_ok cs →
  ∀ s kids s',
    map_state (λ child, build child depth p) cs s = (kids, s') →
    rows_built expandedNodes getTextWidth
      (flat_map (visible_rows expandedNodes depth) cs) s s'.
Proof.
  induction 1 as [|c cs Hc _ IH]; intros s kids s'; simpl.
  - intros [= <- <-]. apply rows_built_nil.
  - destruct (build c depth p s) as [a s1] eqn:Hbuild.
    destruct (map_state _ cs s1) as [ks s2] eqn:Hrest.
    intros [= <- <-]. eapply rows_built_app; eauto.
Qed.

Lemma buildHierarchy_rows (nd : MindMapNode) : rows_ok nd.
Proof.
  induction nd as [i tp cs IH] using MindMapNode_ind.
  intros depth p s a s'. unfold build. simpl.
  match goal with
  | |- context [MkBuildState (bs_store s ++ [?n]) _] => set (n0 := n)
  end.
  set (s0 := MkBuildState (bs_store s ++ [n0]) (bs_yCounter s)).
  destruct (if is_expanded expandedNodes i then _ else _) as [kids s1] eqn:Hkids.
  set (rows := if is_expanded expandedNodes i
               then flat_map (visible_rows expandedNodes (S depth)) cs else []).
  assert (rows_built expandedNodes getTextWidth rows s0 s1
          ∧ length kids = if is_expanded expandedNodes i then length cs else 0)
    as [(ek & Hs1 & Hrows & Hshown & Hleaf & Hyc) Hlen].
  { unfold rows. destruct (is_expanded expandedNodes i).
    - split; [by eapply map_state_rows|].
      rewrite <- (map_state_length
                    (λ child, build child (S depth) (Some (length (bs_store s)))) cs s0).
      unfold build. by rewrite Hkids.
    - injection Hkids as <- <-. split; [apply rows_built_nil | done]. }
  simpl in Hs1, Hleaf, Hyc.
  assert (∀ y, alter (set_y y) (length (bs_store s))
                 (alter (set_children kids) (length (bs_store s)) (bs_store s1))
               = bs_store s ++ set_y y (set_children kids n0) :: ek) as Hfinal.
  { intros y. rewrite Hs1, <- app_assoc.
    change ([n0] ++ ek) with (n0 :: ek). by rewrite !alter_at_length. }
  assert (∀ y, shows getTextWidth (set_y y (set_children kids n0))
                 (depth, MkMindMapNode i tp cs)) as Hroot by done.
  assert (∀ y, children_shown expandedNodes (set_y y (set_children kids n0)))
    as Hrootkids by (intros y; exact Hlen).
  destruct (0 <? length kids) eqn:Hpos; intros [= <- <-]; simpl; rewrite Hfinal.
  - apply Nat.ltb_lt in Hpos.
    assert (is_leaf (set_y (fold_left (λ sum child,
                        (sum + y_of (alter (set_children kids) (length (bs_store s))
                                       (bs_store s1)) child)%Q) kids 0%Q
                      / inject_Z (Z.of_nat (length kids)))%Q
               (set_children kids n0)) = false) as Hnotleaf.
    { unfold is_leaf. simpl. destruct kids; [simpl in Hpos; lia | done]. }
    eexists. split_and!; [done | by constructor | by constructor | |]; simpl.
    + unfold leaf_ys. simpl. rewrite Hnotleaf. exact Hleaf.
    + unfold leaf_ys. simpl. rewrite Hnotleaf. exact Hyc.
  - apply Nat.ltb_ge in Hpos.
    assert (kids = []) as -> by (destruct kids; [done | simpl in Hpos; lia]).
    assert (ek = []) as ->.
    { destruct (is_expanded expandedNodes i); simpl in Hlen.
      - destruct cs; [|done]. unfold rows in Hrows. simpl in Hrows.
        by inversion Hrows.
      - unfold rows in Hrows. by inversion Hrows. }
    simpl in Hyc. rewrite Hyc.
    eexists. split_and!; [done | by repeat constructor | by repeat constructor | |];
      done.
Qed.
End build_rows.

(** ** The layout: what [positionNodes] leaves behind *)

Lemma hier_parent_in (h : store) (t : htree) :
  ∀ p b n,
    hier h p t → b ∈ h_addrs t → h !! b = Some n →
    (b = h_root t ∧ ln_parent n = p)
    ∨ ∃ q, ln_parent n = Some q ∧ q ∈ h_addrs t.
Proof.
  induction t as [a kids IH] using htree_ind. intros p b m Hh.
  inversion Hh as [p' a' kids' n Hn Hp Hkids Hsub]; subst. simpl.
  intros [->|Hb]%elem_of_cons Hm.
  - left. rewrite Hn in Hm. by injection Hm as <-.
  - right. apply elem_of_flat_map in Hb as (k & Hk & Hb).
    rewrite Forall_forall in IH, Hsub.
    destruct (IH k Hk (Some a) b m (Hsub k Hk) Hb Hm) as [[-> Hpar]|(q & Hq & Hin)].
    + exists a. split; [done | left].
    + exists q. split; [done|]. right. apply elem_of_flat_map. eauto.
Qed.

Lemma x_rule_agree (cw : Q) (h h' : store) (b : addr) :
  h' !! b = h !! b →
  (∀ n q, h !! b = Some n → ln_parent n = Some q → h' !! q = h !! q) →
  x_rule cw h b → x_rule cw h' b.
Proof.
  intros Hb Hq Hrule n Hn. rewrite Hb in Hn. specialize (Hrule n Hn).
  destruct (ln_parent n) as [q|] eqn:Hparent; [|done].
  destruct Hrule as (pn & Hpn & Hx). exists pn. split; [|done].
  by rewrite (Hq n q Hn Hparent).
Qed.

Lemma link_ok_agree (h h' : store) (l : LayoutLink) :
  h' !! ll_source l = h !! ll_source l →
  h' !! ll_target l = h !! ll_target l →
  link_ok h l → link_ok h' l.
Proof.
  intros Hs Ht (ns & nt & Hns & Hnt & Hrest). exists ns, nt.
  by rewrite Hs, Ht.
Qed.

Lemma placed_nil (cw : Q) (p : addr) (st : LayoutState) : placed cw (Some p) [] st st.
Proof.
  split_and!; [done | by eauto using same_but_xy_refl | by intros b ?%elem_of_nil |].
  exists []. by rewrite app_nil_r.
Qed.

Section position_more.
Variable containerWidth : Q.

Let place_ok (t : htree) : Prop :=
  ∀ fuel p off px pw st st',
    hier (st_store st) p t →
    NoDup (h_addrs t) →
    (∀ q, p = Some q →
          (q ∉ h_addrs t)
          ∧ (∃ pn, st_store st !! q = Some pn ∧ px = ln_x pn ∧ pw = ln_width pn)) →
    positionNodes containerWidth fuel (h_root t) off px pw st = Some st' →
    placed containerWidth p (h_addrs t) st st'.

Lemma for_each_placed (kids : list htree) :
  Forall place_ok kids →
  ∀ fuel a off st st',
    Forall (hier (st_store st) (Some a)) kids →
    NoDup (flat_map h_addrs kids) →
    a ∉ flat_map h_addrs kids →
    for_each
      (λ child st1,
         cur ← st_store st1 !! a;
         positionNodes containerWidth fuel child off (ln_x cur) (ln_width cur) st1)
      (h_root <$> kids) st = Some st' →
    placed containerWidth (Some a) (flat_map h_addrs kids) st st'.
Proof.
  induction 1 as [|k ks Hk _ IH]; intros fuel a off st st' Hh Hnodup Ha Hrun.
  - injection Hrun as <-. apply placed_nil.
  - simpl in Hrun, Hnodup, Ha.
    apply Forall_cons in Hh as [Hh1 Hh2].
    apply NoDup_app in Hnodup as (Hnd1 & Hdisj & Hnd2).
    apply not_elem_of_app in Ha as [Ha1 Ha2].
    destruct (st_store st !! a) as [cur|] eqn:Hcur; [|done]. simpl in Hrun.
    destruct (positionNodes containerWidth fuel (h_root k) off (ln_x cur) (ln_width cur) st)
      as [st1|] eqn:Hrun1; [|done].
    apply (Hk fuel (Some a)) in Hrun1
      as (Hframe1 & Hsame1 & Hx1 & L1 & Hl1 & Hin1 & Hok1 & Ht1);
      [ | done | done | by intros q [= <-]; eauto ].
    assert (Forall (hier (st_store st1) (Some a)) ks) as Hh2'.
    { eapply Forall_impl; [exact Hh2|]. intros t. apply hier_preserved.
      intros b n _. apply Hsame1. }
    assert (hier (st_store st1) (Some a) k) as Hh1'.
    { revert Hh1. apply hier_preserved. intros b n _. apply Hsame1. }
    apply (IH fuel a off st1) in Hrun
      as (Hframe2 & Hsame2 & Hx2 & L2 & Hl2 & Hin2 & Hok2 & Ht2); [ | done | done | done].
    simpl. split_and!.
    + intros b Hb. apply not_elem_of_app in Hb as [Hb1 Hb2].
      by rewrite Hframe2, Hframe1.
    + intros b n Hn. destruct (Hsame1 b n Hn) as (n1 & Hn1 & Hs1).
      destruct (Hsame2 b n1 Hn1) as (n2 & Hn2 & Hs2).
      exists n2. split; [done | by eapply same_but_xy_trans].
    + intros b [Hb|Hb]%elem_of_app; [|by apply Hx2].
      apply (x_rule_agree containerWidth (st_store st1)); [| |by apply Hx1].
      * apply Hframe2. by apply Hdisj.
      * intros n q Hn Hq. apply Hframe2.
        destruct (hier_parent_in _ _ _ _ _ Hh1' Hb Hn) as [[_ Hpar]|(q' & Hq' & Hin)].
        -- rewrite Hq in Hpar. by injection Hpar as ->.
        -- rewrite Hq in Hq'. injection Hq' as <-. by apply Hdisj.
    + exists (L1 ++ L2). split_and!.
      * by rewrite Hl2, Hl1, app_assoc.
      * apply Forall_app.
        split; [eapply Forall_impl; [exact Hin1|] | eapply Forall_impl; [exact Hin2|]];
          intros l; apply link_in_weaken; intros b; rewrite elem_of_app; auto.
      * apply Forall_app. split; [|done].
        rewrite Forall_forall in Hin1, Hok1. apply Forall_forall. intros l Hl.
        destruct (Hin1 l Hl) as [Ht Hs].
        apply (link_ok_agree (st_store st1)); [| |by apply Hok1].
        -- apply Hframe2. destruct Hs as [Hs|[= ->]]; [by apply Hdisj | done].
        -- apply Hframe2. by apply Hdisj.
      * by rewrite fmap_app, Ht1, Ht2.
Qed.

Lemma positionNodes_placed (t : htree) : place_ok t.
Proof.
  induction t as [a kids IH] using htree_ind.
  intros fuel p off px pw st st' Hh Hnodup Hp Hrun.
  inversion Hh as [p' a' kids' n Hn Hparent Hkids Hsub]; subst.
  simpl in Hnodup. apply NoDup_cons in Hnodup as [Hfresh Hnodup].
  destruct fuel as [|fuel]; [done|]. simpl in Hrun. rewrite Hn in Hrun. simpl in Hrun.
  match type of Hrun with
  | context [<[a := ?m]> (st_store st)] => set (n1 := m) in *
  end.
  set (h1 := <[a := n1]> (st_store st)) in *.
  assert (h1 !! a = Some n1) as Hn1.
  { apply list_lookup_insert_eq. by eapply lookup_lt_Some. }
  assert (∀ b, b ≠ a → h1 !! b = st_store st !! b) as Hother.
  { intros b Hb. by apply list_lookup_insert_ne. }
  assert (∀ b m, st_store st !! b = Some m → ∃ m', h1 !! b = Some m' ∧ same_but_xy m m')
    as Hsame1.
  { intros b m Hm. destruct (decide (b = a)) as [->|Hne].
    - rewrite Hn in Hm. injection Hm as <-. exists n1. split; [done|].
      apply same_but_xy_moved.
    - exists m. rewrite Hother by done. split; [done | apply same_but_xy_refl]. }
  assert (Forall (hier h1 (Some a)) kids) as Hsub1.
  { eapply Forall_impl; [exact Hsub|]. intros k. apply hier_preserved.
    intros b m _. apply Hsame1. }
  assert (∃ L0 st1,
            st1 = MkLayoutState h1 (st_nodes st ++ [a]) (st_links st ++ L0)
            ∧ for_each
                (λ child st2,
                   cur ← st_store st2 !! a;
                   positionNodes containerWidth fuel child off
                     (ln_x cur) (ln_width cur) st2)
                (h_root <$> kids) st1 = Some st'
            ∧ Forall (link_in (ln_parent n) [a]) L0
            ∧ Forall (link_ok h1) L0
            ∧ ll_target <$> L0 = match ln_parent n with Some _ => [a] | None => [] end
            ∧ x_rule containerWidth h1 a)
    as (L0 & st1 & -> & Hrun1 & Hin0 & Hok0 & Ht0 & Hxa).
  { rewrite Hkids in Hrun. destruct (ln_parent n) as [q|] eqn:Hq; simpl in Hrun.
    - destruct (Hp q eq_refl) as (Hqfresh & pn & Hpn & -> & ->).
      assert (q ≠ a) as Hqa by (intros ->; apply Hqfresh; left).
      assert (h1 !! q = Some pn) as Hpn1 by (by rewrite Hother).
      rewrite Hpn1 in Hrun. simpl in Hrun.
      eexists [_], _. split; [reflexivity|]. split; [exact Hrun|]. split_and!.
      + constructor; [|constructor]. split; simpl; [left | by right].
      + constructor; [|constructor]. exists pn, n1. simpl. by rewrite Hpn1, Hn1.
      + done.
      + intros m Hm. rewrite Hn1 in Hm. injection Hm as <-. simpl. rewrite Hq.
        exists pn. by split.
    - exists [], (MkLayoutState h1 (st_nodes st ++ [a]) (st_links st ++ [])).
      rewrite app_nil_r. split; [reflexivity|]. split; [exact Hrun|].
      split_and!; [constructor | constructor | done |].
      intros m Hm. rewrite Hn1 in Hm. injection Hm as <-. simpl. by rewrite Hq. }
  apply (for_each_placed kids IH) in Hrun1
    as (Hframe2 & Hsame2 & Hx2 & L2 & Hl2 & Hin2 & Hok2 & Ht2); [ | done | done | done].
  simpl in *. split_and!.
  - intros b Hb. apply not_elem_of_cons in Hb as [Hba Hb].
    by rewrite Hframe2, Hother.
  - intros b m Hm. destruct (Hsame1 b m Hm) as (m1 & Hm1 & Hs1).
    destruct (Hsame2 b m1 Hm1) as (m2 & Hm2 & Hs2).
    exists m2. split; [done | by eapply same_but_xy_trans].
  - intros b [->|Hb]%elem_of_cons; [|by apply Hx2].
    apply (x_rule_agree containerWidth h1); [by apply Hframe2 | | done].
    intros m q Hm Hq. rewrite Hn1 in Hm. injection Hm as <-. simpl in Hq.
    apply Hframe2. destruct (Hp q Hq) as [Hqfresh _].
    intros Hin. apply Hqfresh. by right.
  - exists (L0 ++ L2). split_and!.
    + by rewrite Hl2, app_assoc.
    + apply Forall_app. split.
      * eapply Forall_impl; [exact Hin0|]. intros l. apply link_in_weaken.
        intros b ->%list_elem_of_singleton. left.
      * eapply Forall_impl; [exact Hin2|]. intros l [Ht [Hs|Hs]]; split.
        -- by right.
        -- left. by right.
        -- by right.
        -- left. injection Hs as ->. left.
    + apply Forall_app. split; [|done].
      rewrite Forall_forall in Hin0, Hok0. apply Forall_forall. intros l Hl.
      destruct (Hin0 l Hl) as [Ht Hs]. apply list_elem_of_singleton in Ht.
      apply (link_ok_agree h1); [| |by apply Hok0].
      * apply Hframe2. destruct Hs as [Hs|Hs].
        -- apply list_elem_of_singleton in Hs. by rewrite Hs.
        -- destruct (Hp _ Hs) as [Hqfresh _]. intros Hin. apply Hqfresh. by right.
      * apply Hframe2. by rewrite Ht.
    + rewrite fmap_app, Ht0, Ht2. by destruct (ln_parent n).
Qed.

Lemma positionNodes_length (fuel : nat) :
  ∀ node off px pw st st',
    positionNodes containerWidth fuel node off px pw st = Some st' →
    length (st_store st') = length (st_store st).
Proof.
  induction fuel as [|fuel IH]; intros node off px pw st st' Hrun; [done|].
  simpl in Hrun. destruct (st_store st !! node) as [n|]; [|done]. simpl in Hrun.
  match type of Hrun with
  | context [for_each ?f ?l] =>
      assert (∀ s s', for_each f l s = Some s' →
                      length (st_store s') = length (st_store s)) as Hall
  end.
  { generalize (ln_children n). intros l. induction l as [|c l IHl]; intros s s' Hs.
    - by injection Hs as <-.
    - simpl in Hs. destruct (st_store s !! node) as [cur|]; [|done]. simpl in Hs.
      destruct (positionNodes containerWidth fuel c off (ln_x cur) (ln_width cur) s)
        as [s1|] eqn:Hs1; [|done].
      rewrite (IHl _ _ Hs). by eapply IH. }
  destruct (ln_parent n) as [q|]; simpl in Hrun.
  - match type of Hrun with
    | context [?l !! q ≫= _] => destruct (l !! q) as [pn|]
    end; [|done].
    simpl in Hrun. apply Hall in Hrun. simpl in Hrun.
    by rewrite length_insert in Hrun.
  - apply Hall in Hrun. simpl in Hrun. by rewrite length_insert in Hrun.
Qed.
End position_more.

(** ** The layout: the whole of what [calculateLayout] returns *)

Lemma same_but_xy_shows (g : string → string → Q) (n n' : LayoutNode)
    (row : nat * MindMapNode) :
  same_but_xy n n' → shows g n row → shows g n' row.
Proof.
  destruct n, n'. unfold same_but_xy, set_x, set_y, shows. simpl.
  intros Heq. by injection Heq as -> -> -> -> -> -> -> ->.
Qed.

Lemma same_but_xy_leaf (n n' : LayoutNode) :
  same_but_xy n n' → is_leaf n' = is_leaf n.
Proof.
  intros (Hkids & _)%same_but_xy_fields. unfold is_leaf. by rewrite Hkids.
Qed.

Lemma omap_lookup_seq {A : Type} (pre l : list A) :
  omap (λ a, (pre ++ l) !! a) (seq (length pre) (length l)) = l.
Proof.
  revert pre. induction l as [|x l IH]; intros pre; simpl; [done|].
  rewrite lookup_at_length. f_equal.
  specialize (IH (pre ++ [x])). rewrite <- app_assoc, length_app in IH.
  simpl in IH. by rewrite Nat.add_1_r in IH.
Qed.

Lemma slots_lookup (y : Q) (k i : nat) (z : Q) :
  slots y k !! i = Some z →
  (z == y + inject_Z (Z.of_nat i) * (NODE_HEIGHT + VERTICAL_SPACING))%Q.
Proof.
  revert y i. induction k as [|k IH]; intros y [|i]; simpl; try done.
  - intros [= <-]. ring.
  - intros Hz. rewrite (IH _ _ Hz). unfold next_slot.
    rewrite Nat2Z.inj_succ. unfold Z.succ. rewrite inject_Z_plus. ring.
Qed.

Section layout_more.
Variable expandedNodes : gset string.
Variable getTextWidth : string → string → Q.
Variable containerWidth : Q.

(** [calculateLayout] returns the objects [buildHierarchy] made, moved:
    [ext] is the store as built, [off] the vertical correction. *)
Lemma calculateLayout_rows (rootNode : MindMapNode) :
  ∃ L ext off,
    calculateLayout expandedNodes getTextWidth containerWidth rootNode = Some L
    ∧ st_nodes L = seq 0 (length ext)
    ∧ Forall2 (λ n n', same_but_xy n n' ∧ ln_y n' = (ln_y n + off)%Q) ext (st_store L)
    ∧ Forall2 (shows getTextWidth) ext (visible_rows expandedNodes 0 rootNode)
    ∧ Forall (children_shown expandedNodes) ext
    ∧ leaf_ys ext = slots 0 (length (leaf_ys ext))
    ∧ (∀ b, b < length ext → x_rule containerWidth (st_store L) b)
    ∧ Forall (link_ok (st_store L)) (st_links L)
    ∧ ll_target <$> st_links L = tail (st_nodes L).
Proof.
  unfold calculateLayout.
  destruct (buildHierarchy _ _ rootNode 0 None _) as [a s] eqn:Hbuild.
  pose proof (buildHierarchy_rows _ _ _ _ _ _ _ _ Hbuild)
    as (ext & Hext & Hrows & Hshown & Hleaf & _).
  apply buildHierarchy_ok in Hbuild
    as (Ha & t & n & Hroot & (ext' & Hs & Haddrs & Hh & _) & _).
  simpl in *. subst a. rewrite Hext in Hs. subst ext'.
  assert (NoDup (h_addrs t)) as Hnodup by (rewrite Haddrs; apply NoDup_seq).
  destruct (positionNodes_ok containerWidth t (length (bs_store s)) None
              (- y_of (bs_store s) 0)%Q 0%Q 0%Q (MkLayoutState (bs_store s) [] []))
    as (L & Hrun & Hnodes & _ & Hshift);
    [done | done | by intros q [=] | by rewrite Haddrs, length_seq, Hext | ].
  pose proof (positionNodes_length _ _ _ _ _ _ _ _ Hrun) as Hlen.
  pose proof Hrun as Hplaced.
  apply (positionNodes_placed containerWidth t _ None) in Hplaced
    as (_ & _ & Hx & Lk & Hlinks & _ & Hok & Htargets); [ | done | done | by intros q [=]].
  rewrite Hroot in Hrun. simpl in *. rewrite Hext in *.
  exists L, ext, (- y_of ext 0)%Q. split_and!; try done.
  - by rewrite Hnodes, Haddrs.
  - apply Forall2_same_length_lookup_2; [done|]. intros i m m' Hm Hm'.
    destruct (Hshift i m Hm) as (m'' & Hm'' & Hsame & Hin & _).
    rewrite Hm' in Hm''. injection Hm'' as <-. split; [done|]. apply Hin.
    rewrite Haddrs. apply elem_of_seq. apply lookup_lt_Some in Hm. lia.
  - intros b Hb. apply Hx. rewrite Haddrs. apply elem_of_seq. lia.
  - by rewrite Hlinks.
  - by rewrite Hlinks, Htargets, Hnodes.
Qed.

Lemma layout_nodes_store (L : LayoutState) :
  st_nodes L = seq 0 (length (st_store L)) → layout_nodes L = st_store L.
Proof.
  intros Hnodes. unfold layout_nodes. rewrite Hnodes.
  apply (omap_lookup_seq [] (st_store L)).
Qed.

(** X19: the layout lists the shown nodes of the tree and no others, a node
    before its subtrees and the children in their order, each with the
    identifier and label of its source, its depth in the tree, the fixed
    height and the width fitted to the label. *)
Theorem layout_lists_shown_nodes (rootNode : MindMapNode) :
  ∃ L,
    calculateLayout expandedNodes getTextWidth containerWidth rootNode = Some L
    ∧ length (layout_nodes L) = length (st_nodes L)
    ∧ Forall2 (shows getTextWidth) (layout_nodes L)
        (visible_rows expandedNodes 0 rootNode).
Proof.
  destruct (calculateLayout_rows rootNode)
    as (L & ext & off & Hrun & Hnodes & Hmoved & Hrows & _).
  exists L. split; [done|].
  pose proof (Forall2_length _ _ _ Hmoved) as Hlen.
  rewrite layout_nodes_store by (by rewrite Hnodes, Hlen).
  split; [by rewrite Hnodes, length_seq|].
  apply Forall2_same_length_lookup_2.
  { rewrite <- Hlen. by eapply Forall2_length. }
  intros i n' row Hn' Hrow.
  destruct (Forall2_lookup_r _ _ _ _ _ Hmoved Hn') as (n & Hn & Hsame & _).
  apply (same_but_xy_shows _ n); [done|].
  by eapply Forall2_lookup_lr.
Qed.

(** X20: a listed node has a rendered child for every child of its source when
    its identifier is in the expansion set, and none otherwise. *)
Theorem layout_children_follow_expansion (rootNode : MindMapNode) :
  ∃ L,
    calculateLayout expandedNodes getTextWidth containerWidth rootNode = Some L
    ∧ Forall (children_shown expandedNodes) (layout_nodes L).
Proof.
  destruct (calculateLayout_rows rootNode)
    as (L & ext & off & Hrun & Hnodes & Hmoved & _ & Hshown & _).
  exists L. split; [done|].
  pose proof (Forall2_length _ _ _ Hmoved) as Hlen.
  rewrite layout_nodes_store by (by rewrite Hnodes, Hlen).
  apply Forall_lookup. intros i n' Hn'.
  destruct (Forall2_lookup_r _ _ _ _ _ Hmoved Hn') as (n & Hn & Hsame & _).
  apply same_but_xy_fields in Hsame as (Hkids & _ & Hsrc & _).
  rewrite Forall_lookup in Hshown. specialize (Hshown i n Hn).
  unfold children_shown in *. by rewrite <- Hkids, <- Hsrc.
Qed.

(** X21: every listed node obeys the horizontal rule: the root sits 50 from the
    left edge of the container, a child sits to the right of its parent's
    box with the gap [HORIZONTAL_SPACING] between the two boxes. *)
Theorem layout_horizontal_rule (rootNode : MindMapNode) :
  ∃ L,
    calculateLayout expandedNodes getTextWidth containerWidth rootNode = Some L
    ∧ Forall (x_rule containerWidth (st_store L)) (st_nodes L).
Proof.
  destruct (calculateLayout_rows rootNode)
    as (L & ext & off & Hrun & Hnodes & _ & _ & _ & _ & Hx & _).
  exists L. split; [done|]. rewrite Hnodes. apply Forall_forall.
  intros b Hb. apply Hx. apply elem_of_seq in Hb. lia.
Qed.

(** X22: there is one link into every listed node but the root, in the order of
    the nodes; it comes from the parent of the node, carries the two
    identifiers as its name, and its path runs from the right edge of the
    parent's box (past the chevron) to the left edge of the node's box, at
    the heights of the two nodes. *)
Theorem layout_links_join_parent_and_child (rootNode : MindMapNode) :
  ∃ L,
    calculateLayout expandedNodes getTextWidth containerWidth rootNode = Some L
    ∧ ll_target <$> st_links L = tail (st_nodes L)
    ∧ Forall (link_ok (st_store L)) (st_links L).
Proof.
  destruct (calculateLayout_rows rootNode)
    as (L & ext & off & Hrun & _ & _ & _ & _ & _ & _ & Hok & Htargets).
  by exists L.
Qed.

(** In exact numbers the nodes without rendered children are one slot
    apart, in the order of the list. *)
Lemma calculateLayout_leaf_ys (rootNode : MindMapNode) :
  ∃ L y0,
    calculateLayout expandedNodes getTextWidth containerWidth rootNode = Some L
    ∧ ∀ i y,
        leaf_ys (layout_nodes L) !! i = Some y →
        (y == y0 + inject_Z (Z.of_nat i) * (NODE_HEIGHT + VERTICAL_SPACING))%Q.
Proof.
  destruct (calculateLayout_rows rootNode)
    as (L & ext & off & Hrun & Hnodes & Hmoved & _ & _ & Hleaf & _).
  exists L, off. split; [done|].
  pose proof (Forall2_length _ _ _ Hmoved) as Hlen.
  rewrite layout_nodes_store by (by rewrite Hnodes, Hlen).
  assert (leaf_ys (st_store L) = (λ y, (y + off)%Q) <$> leaf_ys ext) as ->.
  { clear -Hmoved. unfold leaf_ys.
    induction Hmoved as [|n n' l l' [Hsame Hy] _ IH]; simpl; [done|].
    rewrite (same_but_xy_leaf _ _ Hsame). destruct (is_leaf n); simpl; [|exact IH].
    f_equal; [exact Hy | exact IH]. }
  intros i y Hy. rewrite list_lookup_fmap in Hy.
  destruct (leaf_ys ext !! i) as [z|] eqn:Hz; [|done]. simpl in Hy.
  injection Hy as <-. rewrite Hleaf in Hz. rewrite (slots_lookup _ _ _ _ Hz). ring.
Qed.

(** X23: the boxes of two listed nodes without rendered children do not meet:
    the one later in the list lies below the other by more than the height of
    a box. *)
Theorem layout_leaves_do_not_overlap (rootNode : MindMapNode) :
  ∃ L,
    calculateLayout expandedNodes getTextWidth containerWidth rootNode = Some L
    ∧ ∀ i j y y',
        (i < j)%nat →
        leaf_ys (layout_nodes L) !! i = Some y →
        leaf_ys (layout_nodes L) !! j = Some y' →
        (y + NODE_HEIGHT < y')%Q.
Proof.
  destruct (calculateLayout_leaf_ys rootNode) as (L & y0 & Hrun & Hleaf).
  exists L. split; [done|]. intros i j y y' Hij Hy Hy'.
  apply Hleaf in Hy, Hy'.
  assert (inject_Z (Z.of_nat i) + 1 <= inject_Z (Z.of_nat j))%Q as Hstep.
  { change 1%Q with (inject_Z 1). rewrite <- inject_Z_plus, <- Zle_Qle. lia. }
  unfold NODE_HEIGHT, VERTICAL_SPACING in *. lra.
Qed.
End layout_more.

(** ** The layout and the expansion set *)

Lemma all_ids_NoDup (t : MindMapNode) :
  ∀ prefix, NoDup (all_ids (addIds t prefix)).
Proof.
  induction t as [i tp cs IH] using MindMapNode_ind. intros prefix.
  rewrite all_ids_unfold, addIds_unfold. simpl.
  apply NoDup_cons. split; [|by apply children_ids_NoDup].
  intros Hin. apply children_ids_index in Hin as (j & r & _ & Heq).
  injection Heq as Heq. symmetry in Heq.
  exact (string_app_ne_self _ "-"%char (index_str j +:+ "-" +:+ r) Heq).
Qed.

Lemma visible_rows_head (E : gset string) (depth : nat) (n : MindMapNode) :
  ∃ rest, visible_rows E depth n = (depth, n) :: rest.
Proof. destruct n. simpl. eauto. Qed.

Lemma visible_rows_collapsed (E : gset string) (depth : nat) (n : MindMapNode) :
  is_expanded E (mm_id n) = false → visible_rows E depth n = [(depth, n)].
Proof. destruct n. simpl. by intros ->. Qed.

Lemma flat_map_collapsed (E : gset string) (depth : nat) (l : list MindMapNode) :
  Forall (λ c, is_expanded E (mm_id c) = false) l →
  flat_map (visible_rows E depth) l = (λ c, (depth, c)) <$> l.
Proof.
  induction 1 as [|c l Hc _ IH]; simpl; [done|].
  rewrite visible_rows_collapsed by done. simpl. f_equal. exact IH.
Qed.

Lemma flat_map_sublist {A B : Type} (f g : A → list B) (l : list A) :
  Forall (λ x, f x `sublist_of` g x) l → flat_map f l `sublist_of` flat_map g l.
Proof.
  induction 1 as [|x l Hx _ IH]; simpl; [done|]. by apply sublist_app.
Qed.

(** The shown nodes are nodes of the tree, in the order of the tree. *)
Lemma visible_rows_sublist (E : gset string) (n : MindMapNode) :
  ∀ depth, (snd <$> visible_rows E depth n) `sublist_of` subnodes n.
Proof.
  induction n as [i tp cs IH] using MindMapNode_ind. intros depth. simpl.
  apply sublist_skip. destruct (is_expanded E i); [|apply sublist_nil_l].
  induction IH as [|c cs Hc _ IHcs]; simpl; [done|].
  rewrite fmap_app. by apply sublist_app.
Qed.

(** A larger expansion set shows the nodes a smaller one shows. *)
Lemma visible_rows_mono (E E' : gset string) (n : MindMapNode) :
  E ⊆ E' → ∀ depth, visible_rows E depth n `sublist_of` visible_rows E' depth n.
Proof.
  intros Hsub. induction n as [i tp cs IH] using MindMapNode_ind. intros depth. simpl.
  apply sublist_skip.
  destruct (is_expanded E i) eqn:Hi; [|apply sublist_nil_l].
  assert (is_expanded E' i = true) as ->.
  { destruct i as [k|]; [|done]. simpl in *.
    apply bool_decide_eq_true in Hi. apply bool_decide_eq_true. by apply Hsub. }
  apply flat_map_sublist. eapply Forall_impl; [exact IH|]. intros c Hc. apply Hc.
Qed.

Lemma map_state_ext {A B S : Type} (f g : A → S → B * S) (l : list A) (s : S) :
  Forall (λ x, ∀ s, f x s = g x s) l → map_state f l s = map_state g l s.
Proof.
  intros Hfg. revert s. induction Hfg as [|x l Hx _ IH]; intros s; simpl; [done|].
  rewrite Hx. destruct (g x s) as [y s1]. by rewrite IH.
Qed.

(** [buildHierarchy] asks the expansion set about shown nodes only. *)
Lemma buildHierarchy_ext (E E' : gset string) (g : string → string → Q)
    (nd : MindMapNode) :
  ∀ depth,
    (∀ row, row ∈ visible_rows E depth nd →
            is_expanded E' (mm_id row.2) = is_expanded E (mm_id row.2)) →
    ∀ p s, buildHierarchy E' g nd depth p s = buildHierarchy E g nd depth p s.
Proof.
  induction nd as [i tp cs IH] using MindMapNode_ind. intros depth Hsame p s.
  simpl in *. pose proof (Hsame (depth, MkMindMapNode i tp cs) ltac:(left)) as Hi'.
  simpl in Hi'. rewrite Hi'. destruct (is_expanded E i) eqn:Hi; [|done].
  rewrite (map_state_ext
             (λ child, buildHierarchy E' g child (S depth) (Some (length (bs_store s))))
             (λ child, buildHierarchy E g child (S depth) (Some (length (bs_store s)))));
    [done|].
  rewrite Forall_forall in IH. apply Forall_forall. intros c Hc s1.
  apply (IH c Hc). intros row Hrow. apply Hsame. right.
  apply elem_of_flat_map. eauto.
Qed.

Section layout_and_expansion.
Variable getTextWidth : string → string → Q.
Variable containerWidth : Q.

Lemma calculateLayout_shown (expandedNodes : gset string) (rootNode : MindMapNode) :
  ∃ L,
    calculateLayout expandedNodes getTextWidth containerWidth rootNode = Some L
    ∧ Forall2 (shows getTextWidth) (layout_nodes L)
        (visible_rows expandedNodes 0 rootNode).
Proof.
  destruct (calculateLayout_rows expandedNodes getTextWidth containerWidth rootNode)
    as (L & ext & off & Hrun & Hnodes & Hmoved & Hrows & _).
  exists L. split; [done|].
  pose proof (Forall2_length _ _ _ Hmoved) as Hlen.
  rewrite layout_nodes_store by (by rewrite Hnodes, Hlen).
  apply Forall2_same_length_lookup_2.
  { rewrite <- Hlen. by eapply Forall2_length. }
  intros i n' row Hn' Hrow.
  destruct (Forall2_lookup_r _ _ _ _ _ Hmoved Hn') as (n & Hn & Hsame & _).
  apply (same_but_xy_shows _ n); [done|].
  by eapply Forall2_lookup_lr.
Qed.

Lemma shown_sources (L : LayoutState) (rows : list (nat * MindMapNode)) :
  Forall2 (shows getTextWidth) (layout_nodes L) rows →
  ln_sourceData <$> layout_nodes L = snd <$> rows
  ∧ ln_id <$> layout_nodes L = mm_id <$> (snd <$> rows).
Proof.
  induction 1 as [|n row l rows (Hsrc & Hid & _) _ [IH1 IH2]]; simpl; [done|].
  split; f_equal; done.
Qed.

(** X24: when a tree is loaded, the expansion set holds the identifier of the
    root alone, and the layout is the root with its children, the children
    shown without theirs. *)
Theorem initial_layout_is_root_and_children (root : MindMapNode) :
  let rootWithId := addIds root root_prefix in
  ∃ L,
    calculateLayout (setInitialExpandedState [root]) getTextWidth containerWidth
      rootWithId = Some L
    ∧ Forall2 (shows getTextWidth) (layout_nodes L)
        ((0, rootWithId) :: ((λ child, (1, child)) <$> mm_children rootWithId)).
Proof.
  cbv zeta.
  destruct (calculateLayout_shown (setInitialExpandedState [root])
              (addIds root root_prefix)) as (L & Hrun & Hshown).
  exists L. split; [done|].
  replace ((0, addIds root root_prefix)
           :: ((λ child, (1, child)) <$> mm_children (addIds root root_prefix)))
    with (visible_rows (setInitialExpandedState [root]) 0 (addIds root root_prefix));
    [done|].
  unfold setInitialExpandedState. rewrite addIds_unfold. simpl.
  set (id := root_prefix +:+ "-" +:+ sanitize (mm_topic root)).
  rewrite bool_decide_eq_true_2 by (by apply elem_of_singleton).
  f_equal. apply flat_map_collapsed, Forall_forall. intros c Hc.
  apply list_elem_of_lookup in Hc as [j Hc].
  rewrite imap_from_lookup in Hc.
  destruct (mm_children root !! j) as [c0|]; [|done]. injection Hc as <-.
  rewrite addIds_unfold. simpl. apply bool_decide_eq_false.
  intros Hin%elem_of_singleton. rewrite !string_app_assoc in Hin.
  exact (string_app_ne_self id "-"%char _ Hin).
Qed.

(** X25: the identifiers of the listed nodes, the keys the nodes are rendered
    under, are pairwise distinct whenever the tree comes from [addIds]. *)
Theorem layout_node_ids_distinct (expandedNodes : gset string) (t : MindMapNode)
    (prefix : string) :
  ∃ L,
    calculateLayout expandedNodes getTextWidth containerWidth (addIds t prefix) = Some L
    ∧ NoDup (ln_id <$> layout_nodes L).
Proof.
  destruct (calculateLayout_shown expandedNodes (addIds t prefix)) as (L & Hrun & Hshown).
  exists L. split; [done|].
  destruct (shown_sources _ _ Hshown) as [_ ->].
  eapply sublist_NoDup; [apply (all_ids_NoDup t prefix)|].
  unfold all_ids. apply fmap_sublist, visible_rows_sublist.
Qed.

(** X26: toggling an identifier that no shown node carries, one that is not in
    the tree or one of a node inside a collapsed subtree, leaves the layout as
    it is. *)
Theorem toggling_unshown_node_keeps_layout (expandedNodes : gset string)
    (rootNode : MindMapNode) (nodeId : string) :
  (∀ n, n ∈ visible expandedNodes rootNode → mm_id n ≠ Some nodeId) →
  calculateLayout (toggleNode nodeId expandedNodes) getTextWidth containerWidth rootNode
  = calculateLayout expandedNodes getTextWidth containerWidth rootNode.
Proof.
  intros Hunshown. unfold calculateLayout.
  rewrite (buildHierarchy_ext expandedNodes (toggleNode nodeId expandedNodes)); [done|].
  intros [d n] Hrow. simpl.
  assert (mm_id n ≠ Some nodeId) as Hid.
  { apply Hunshown. unfold visible. apply list_elem_of_fmap. by exists (d, n). }
  destruct (mm_id n) as [k|]; [|done]. simpl.
  apply bool_decide_ext. rewrite toggleNode_elem_of.
  split; [intros [[_ Hk]|[-> _]]; [done | congruence] | intros Hk; left; split; congruence].
Qed.

(** X27: expanding more never hides a node: what a smaller expansion set shows
    is shown, in the same order, with a larger one. *)
Theorem expanding_more_shows_more (expandedNodes expandedNodes' : gset string)
    (rootNode : MindMapNode) :
  expandedNodes ⊆ expandedNodes' →
  ∃ L L',
    calculateLayout expandedNodes getTextWidth containerWidth rootNode = Some L
    ∧ calculateLayout expandedNodes' getTextWidth containerWidth rootNode = Some L'
    ∧ (ln_sourceData <$> layout_nodes L) `sublist_of` (ln_sourceData <$> layout_nodes L').
Proof.
  intros Hsub.
  destruct (calculateLayout_shown expandedNodes rootNode) as (L & Hrun & Hshown).
  destruct (calculateLayout_shown expandedNodes' rootNode) as (L' & Hrun' & Hshown').
  exists L, L'. split_and!; [done | done |].
  destruct (shown_sources _ _ Hshown) as [-> _].
  destruct (shown_sources _ _ Hshown') as [-> _].
  apply fmap_sublist. by apply visible_rows_mono.
Qed.

End layout_and_expansion.

Lemma toggling_unshown_node_keeps_layout_witness :
  calculateLayout (toggleNode "root-A-1-C-0-D" {[ "root-A" ]}) fallbackTextWidth 1000
    (addIds sample_tree root_prefix)
  = calculateLayout {[ "root-A" ]} fallbackTextWidth 1000 (addIds sample_tree root_prefix).
Proof.
  apply (toggling_unshown_node_keeps_layout fallbackTextWidth 1000 {[ "root-A" ]}
           (addIds sample_tree root_prefix) "root-A-1-C-0-D").
  intros n Hn. vm_compute in Hn.
  repeat (apply elem_of_cons in Hn as [->|Hn]; [discriminate|]).
  by apply elem_of_nil in Hn.
Defined.

Lemma expanding_more_shows_more_witness :
  ∃ L L',
    calculateLayout ∅ fallbackTextWidth 1000 (addIds sample_tree root_prefix) = Some L
    ∧ calculateLayout {[ "root-A" ]} fallbackTextWidth 1000
        (addIds sample_tree root_prefix) = Some L'
    ∧ (ln_sourceData <$> layout_nodes L) `sublist_of` (ln_sourceData <$> layout_nodes L').
Proof.
  apply (expanding_more_shows_more fallbackTextWidth 1000 ∅ {[ "root-A" ]}
           (addIds sample_tree root_prefix)).
  apply empty_subseteq.
Defined.
